(** * Todo / Filter / Theme stores of the Context-API lab, and their view

    A shallow embedding of [src/contexts/TodoContext.tsx],
    [src/contexts/ThemeContext.tsx], [src/contexts/FilterContext.tsx] and
    of the projection computed in [src/components/TodoList.tsx].

    JavaScript strings are sequences of UTF-16 code units, [Date.now()] is
    a reading of the host clock handed to the reducer, [localStorage] is a
    read that either throws or yields a string or [null], and exceptions
    are values of a small result type. *)

From Stdlib Require Import ZArith NArith Ascii String DecimalString DecimalZ.
From stdpp Require Import base numbers list gmap.

Set Default Proof Using "Type".
Set Warnings "-register-all".

(** ** The JavaScript values the stores handle *)

Module JS.

(** A string is the list of its UTF-16 code units. *)
Definition jsstring := list N.

(** An ASCII literal of the source, as code units. *)
Definition lit (s : string) : jsstring := N_of_ascii <$> list_ascii_of_string s.

(** [WhiteSpace] and [LineTerminator] of ECMAScript, the code units
    that [String.prototype.trim] strips. *)
Definition is_white_space (c : N) : bool :=
  (  (c =? 0x0009) || (c =? 0x000A) || (c =? 0x000B) || (c =? 0x000C)
  || (c =? 0x000D) || (c =? 0x0020) || (c =? 0x00A0) || (c =? 0x1680)
  || ((0x2000 <=? c) && (c <=? 0x200A))
  || (c =? 0x2028) || (c =? 0x2029) || (c =? 0x202F) || (c =? 0x205F)
  || (c =? 0x3000) || (c =? 0xFEFF))%N.

Fixpoint trimStart (s : jsstring) : jsstring :=
  match s with
  | c :: r => if is_white_space c then trimStart r else s
  | [] => []
  end.

Definition trimEnd (s : jsstring) : jsstring := reverse (trimStart (reverse s)).

(** [s.trim()] *)
Definition trim (s : jsstring) : jsstring := trimEnd (trimStart s).

(** [ToBoolean] of a string: every string but the empty one is truthy. *)
Definition truthy (s : jsstring) : bool :=
  match s with [] => false | _ :: _ => true end.

(** [n.toString()] of an integral number below 1e21 in magnitude, which
    every time value of [Date.now()] is: its decimal digits, with a
    leading minus sign when negative. *)
Definition toString (n : Z) : jsstring := lit (NilZero.string_of_int (Z.to_int n)).

(** *** Completions: a call returns normally or throws *)

Inductive Error := SyntaxError | StorageError.

Inductive completion (A : Type) :=
| Normal (a : A)
| Throw (e : Error).
Arguments Normal {A} a.
Arguments Throw {A} e.

(** *** JSON.parse

    The value grammar of ECMA-404, which [JSON.parse] accepts.  A
    number keeps its lexeme (its numeric value plays no part below); an
    object keeps its members in source order, a later member of the
    same name overriding an earlier one on lookup. *)

Inductive JSValue :=
| JNull
| JBool (b : bool)
| JNumber (lexeme : jsstring)
| JString (s : jsstring)
| JArray (elems : list JSValue)
| JObject (members : list (jsstring * JSValue)).

Inductive parse_result :=
| POk (v : JSValue) (rest : jsstring)
| PSyntaxError
| POutOfFuel.

Definition ch (a : ascii) : N := N_of_ascii a.
Definition quote : N := 0x22%N.
Definition backslash : N := 0x5C%N.

Definition is_json_ws (c : N) : bool :=
  ((c =? 0x20) || (c =? 0x09) || (c =? 0x0A) || (c =? 0x0D))%N.

Fixpoint skip_ws (s : jsstring) : jsstring :=
  match s with
  | c :: r => if is_json_ws c then skip_ws r else s
  | [] => []
  end.

Definition is_digit (c : N) : bool := ((0x30 <=? c) && (c <=? 0x39))%N.

Definition hex_val (c : N) : option N :=
  if is_digit c then Some (c - 0x30)%N
  else if ((0x41 <=? c) && (c <=? 0x46))%N then Some (c - 0x41 + 10)%N
  else if ((0x61 <=? c) && (c <=? 0x66))%N then Some (c - 0x61 + 10)%N
  else None.

Definition hex4 (a b c d : N) : option N :=
  match hex_val a, hex_val b, hex_val c, hex_val d with
  | Some a, Some b, Some c, Some d => Some (((a * 16 + b) * 16 + c) * 16 + d)%N
  | _, _, _, _ => None
  end.

(** The code unit a one-letter escape stands for. *)
Definition unescape (e : N) : option N :=
  if (e =? quote)%N then Some quote
  else if (e =? backslash)%N then Some backslash
  else if (e =? ch "/")%N then Some (ch "/")
  else if (e =? ch "b")%N then Some 0x08%N
  else if (e =? ch "f")%N then Some 0x0C%N
  else if (e =? ch "n")%N then Some 0x0A%N
  else if (e =? ch "r")%N then Some 0x0D%N
  else if (e =? ch "t")%N then Some 0x09%N
  else None.

(** The characters of a string after its opening quote, up to and
    including the closing one; [acc] holds the decoded code units read
    so far, last first. *)
Fixpoint parse_string_body (s acc : jsstring) : option (jsstring * jsstring) :=
  match s with
  | [] => None
  | c :: r =>
      if (c =? quote)%N then Some (reverse acc, r)
      else if (c =? backslash)%N then
        match r with
        | [] => None
        | e :: r' =>
            if (e =? ch "u")%N then
              match r' with
              | h1 :: h2 :: h3 :: h4 :: r'' =>
                  match hex4 h1 h2 h3 h4 with
                  | Some u => parse_string_body r'' (u :: acc)
                  | None => None
                  end
              | _ => None
              end
            else
              match unescape e with
              | Some u => parse_string_body r' (u :: acc)
              | None => None
              end
        end
      else if (c <? 0x20)%N then None
      else parse_string_body r (c :: acc)
  end.

(** The longest run of digits at the head of [s], and what follows. *)
Fixpoint digits (s : jsstring) : jsstring * jsstring :=
  match s with
  | c :: r => if is_digit c then let '(d, rest) := digits r in (c :: d, rest) else ([], s)
  | [] => ([], [])
  end.

(** One or more digits. *)
Definition digits1 (s : jsstring) : option (jsstring * jsstring) :=
  match digits s with
  | ([], _) => None
  | (d, rest) => Some (d, rest)
  end.

(** A JSON number: an optional minus sign; then a single 0, or a
    nonzero digit followed by digits; then optionally a point and one or
    more digits; then optionally e or E, an optional sign and one or more
    digits.  Yields the lexeme and what follows it. *)
Definition parse_number (s : jsstring) : option (jsstring * jsstring) :=
  let '(sign, s1) :=
    match s with
    | c :: r => if (c =? ch "-")%N then ([c], r) else ([], s)
    | [] => ([], s)
    end in
  let int_part :=
    match s1 with
    | c :: r => if (c =? ch "0")%N then Some ([c], r) else digits1 s1
    | [] => None
    end in
  match int_part with
  | None => None
  | Some (i, s2) =>
      let frac_part :=
        match s2 with
        | c :: r =>
            if (c =? ch ".")%N then
              match digits1 r with
              | Some (d, rest) => Some (c :: d, rest)
              | None => None
              end
            else Some ([], s2)
        | [] => Some ([], s2)
        end in
      match frac_part with
      | None => None
      | Some (f, s3) =>
          let exp_part :=
            match s3 with
            | c :: r =>
                if ((c =? ch "e") || (c =? ch "E"))%N then
                  let '(esign, r1) :=
                    match r with
                    | c' :: r' => if ((c' =? ch "+") || (c' =? ch "-"))%N then ([c'], r') else ([], r)
                    | [] => ([], r)
                    end in
                  match digits1 r1 with
                  | Some (d, rest) => Some (c :: esign ++ d, rest)
                  | None => None
                  end
                else Some ([], s3)
            | [] => Some ([], s3)
            end in
          match exp_part with
          | None => None
          | Some (e, s4) => Some (sign ++ i ++ f ++ e, s4)
          end
      end
  end.

(** [s] without the prefix [p], when it starts with it. *)
Fixpoint strip_prefix (p s : jsstring) : option jsstring :=
  match p, s with
  | [], _ => Some s
  | a :: p', b :: s' => if (a =? b)%N then strip_prefix p' s' else None
  | _ :: _, [] => None
  end.

Definition parse_atom (s : jsstring) : parse_result :=
  match strip_prefix (lit "null") s with
  | Some rest => POk JNull rest
  | None =>
  match strip_prefix (lit "true") s with
  | Some rest => POk (JBool true) rest
  | None =>
  match strip_prefix (lit "false") s with
  | Some rest => POk (JBool false) rest
  | None =>
  match parse_number s with
  | Some (lexeme, rest) => POk (JNumber lexeme) rest
  | None => PSyntaxError
  end end end end.

(** Recursive descent over the value grammar.  Every call spends one
    unit of [fuel]; [JSON_parse] supplies enough of it. *)
Fixpoint parse_value (fuel : nat) (s : jsstring) : parse_result :=
  match fuel with
  | O => POutOfFuel
  | S fuel =>
      match skip_ws s with
      | [] => PSyntaxError
      | c :: r =>
          if (c =? ch "[")%N then
            match skip_ws r with
            | c' :: r' =>
                if (c' =? ch "]")%N then POk (JArray []) r'
                else parse_elements fuel (c' :: r') []
            | [] => PSyntaxError
            end
          else if (c =? ch "{")%N then
            match skip_ws r with
            | c' :: r' =>
                if (c' =? ch "}")%N then POk (JObject []) r'
                else parse_members fuel (c' :: r') []
            | [] => PSyntaxError
            end
          else if (c =? quote)%N then
            match parse_string_body r [] with
            | Some (str, rest) => POk (JString str) rest
            | None => PSyntaxError
            end
          else parse_atom (c :: r)
      end
  end
with parse_elements (fuel : nat) (s : jsstring) (acc : list JSValue) : parse_result :=
  match fuel with
  | O => POutOfFuel
  | S fuel =>
      match parse_value fuel s with
      | POk v rest =>
          match skip_ws rest with
          | c :: r =>
              if (c =? ch ",")%N then parse_elements fuel r (v :: acc)
              else if (c =? ch "]")%N then POk (JArray (reverse (v :: acc))) r
              else PSyntaxError
          | [] => PSyntaxError
          end
      | PSyntaxError => PSyntaxError
      | POutOfFuel => POutOfFuel
      end
  end
with parse_members (fuel : nat) (s : jsstring) (acc : list (jsstring * JSValue)) : parse_result :=
  match fuel with
  | O => POutOfFuel
  | S fuel =>
      match skip_ws s with
      | c :: r =>
          if (c =? quote)%N then
            match parse_string_body r [] with
            | Some (key, rest) =>
                match skip_ws rest with
                | c' :: r' =>
                    if (c' =? ch ":")%N then
                      match parse_value fuel r' with
                      | POk v rest' =>
                          match skip_ws rest' with
                          | c'' :: r'' =>
                              if (c'' =? ch ",")%N then parse_members fuel r'' ((key, v) :: acc)
                              else if (c'' =? ch "}")%N then POk (JObject (reverse ((key, v) :: acc))) r''
                              else PSyntaxError
                          | [] => PSyntaxError
                          end
                      | PSyntaxError => PSyntaxError
                      | POutOfFuel => POutOfFuel
                      end
                    else PSyntaxError
                | [] => PSyntaxError
                end
            | None => PSyntaxError
            end
          else PSyntaxError
      | [] => PSyntaxError
      end
  end.

(** [JSON.parse(text)]: one value, white space around it, nothing else;
    a [SyntaxError] otherwise. *)
Definition JSON_parse (text : jsstring) : completion JSValue :=
  match parse_value (2 * length text + 2) text with
  | POk v rest =>
      match skip_ws rest with
      | [] => Normal v
      | _ :: _ => Throw SyntaxError
      end
  | PSyntaxError | POutOfFuel => Throw SyntaxError
  end.

(** JSON text written with ['] for the double quote. *)
Definition json_lit (s : string) : jsstring :=
  (fun c => if (c =? ch "'")%N then quote else c) <$> lit s.

(** [o[key]] on the members of an object: the last member of that name. *)
Fixpoint get_prop (key : jsstring) (members : list (jsstring * JSValue)) : option JSValue :=
  match members with
  | [] => None
  | (k, v) :: rest =>
      match get_prop key rest with
      | Some v' => Some v'
      | None => if bool_decide (k = key) then Some v else None
      end
  end.

(** *** Effects of the host: storage reads and the console

    A computation is the list of events it performs, in order, and the
    way it completes. *)

Inductive Event :=
| GetItem (key : jsstring)
| ConsoleError (message : jsstring).

Definition M (A : Type) : Type := list Event * completion A.

Definition ret {A} (a : A) : M A := ([], Normal a).

Definition bind {A B} (m : M A) (k : A -> M B) : M B :=
  match m with
  | (evs, Normal a) => let '(evs', c) := k a in (evs ++ evs', c)
  | (evs, Throw e) => (evs, Throw e)
  end.

(** Lifts a pure call that may throw. *)
Definition call {A} (c : completion A) : M A := ([], c).

(** [try { body } catch (error) { handler }] *)
Definition try_catch {A} (body : M A) (handler : Error -> M A) : M A :=
  match body with
  | (evs, Normal a) => (evs, Normal a)
  | (evs, Throw e) => let '(evs', c) := handler e in (evs ++ evs', c)
  end.

Definition console_error (message : jsstring) : M unit :=
  ([ConsoleError message], Normal tt).

(** What the host's [localStorage] answers to [getItem(key)]: the
    stored string, [null] ([None]) when the key is absent, or an
    exception when storage is unavailable. *)
Definition Storage := jsstring -> completion (option jsstring).

Definition getItem (localStorage : Storage) (key : jsstring) : M (option jsstring) :=
  ([GetItem key], localStorage key).

(** The keys a computation read from storage, in order. *)
Definition storage_reads (evs : list Event) : list jsstring :=
  omap (fun ev => match ev with GetItem key => Some key | ConsoleError _ => None end) evs.

(** A working storage that holds the given items. *)
Fixpoint storage_holding (items : list (jsstring * jsstring)) : Storage :=
  fun key =>
    match items with
    | [] => Normal None
    | (k, v) :: rest =>
        if bool_decide (k = key) then Normal (Some v) else storage_holding rest key
    end.

(** A storage that refuses every access. *)
Definition storage_unavailable : Storage := fun _ => Throw StorageError.

End JS.
Import JS.

Notation "'let*' x ':=' m 'in' k" := (bind m (fun x => k))
  (at level 10, x name, m at level 100, k at level 200).
Notation "'do' m 'then' k" := (bind m (fun _ => k))
  (at level 10, m at level 100, k at level 200).

(** ** TodoContext *)

Module TodoContext.

(** [interface Todo] *)
Record Todo := mkTodo { id : jsstring; text : jsstring; completed : bool }.

(** [type TodoAction] *)
Inductive TodoAction :=
| ADD_TODO (payload : jsstring)
| TOGGLE_TODO (payload : jsstring)
| DELETE_TODO (payload : jsstring)
| EDIT_TODO (payload_id payload_newText : jsstring)
| CLEAR_COMPLETED
| LOAD_TODOS (payload : list Todo).

(** [a === b] on strings *)
Definition str_eq (a b : jsstring) : bool := bool_decide (a = b).

(** [todoReducer(state, action)].  [now] is the value [Date.now()]
    returns if the reducer reads the clock, which it does in the
    ['ADD_TODO'] case only. *)
Definition todoReducer (now : Z) (state : list Todo) (action : TodoAction) : list Todo :=
  match action with
  | ADD_TODO payload =>
      state ++ [ {| id := toString now; text := payload; completed := false |} ]
  | TOGGLE_TODO payload =>
      (fun todo =>
         if str_eq (id todo) payload
         then {| id := id todo; text := text todo; completed := negb (completed todo) |}
         else todo) <$> state
  | DELETE_TODO payload =>
      List.filter (fun todo => negb (str_eq (id todo) payload)) state
  | EDIT_TODO payload_id payload_newText =>
      (fun todo =>
         if str_eq (id todo) payload_id
         then {| id := id todo; text := payload_newText; completed := completed todo |}
         else todo) <$> state
  | CLEAR_COMPLETED =>
      List.filter (fun todo => negb (completed todo)) state
  | LOAD_TODOS payload => payload
  end.

(** What the ['EDIT_TODO'] case does to the item [t]. *)
Definition edited (i newText : jsstring) (t : Todo) : Todo :=
  if decide (id t = i) then mkTodo (id t) newText (completed t) else t.

(** What the ['TOGGLE_TODO'] case does to the item [t]. *)
Definition toggled (i : jsstring) (t : Todo) : Todo :=
  if decide (id t = i) then mkTodo (id t) (text t) (negb (completed t)) else t.

(** *** TodoProvider: the action functions

    [dispatch] hands the action to [todoReducer] with the current
    collection; each function returns the collection after the call.
    [now] is the clock reading at the call. *)
Section TodoProvider.
Variable now : Z.
Variable todos : list Todo.

Definition dispatch (action : TodoAction) : list Todo := todoReducer now todos action.

Definition addTodo (text : jsstring) : list Todo :=
  if truthy (trim text) then dispatch (ADD_TODO (trim text)) else todos.

Definition toggleTodo (id : jsstring) : list Todo := dispatch (TOGGLE_TODO id).

Definition deleteTodo (id : jsstring) : list Todo := dispatch (DELETE_TODO id).

Definition editTodo (id newText : jsstring) : list Todo :=
  if truthy (trim newText) then dispatch (EDIT_TODO id (trim newText)) else todos.

Definition clearCompleted : list Todo := dispatch CLEAR_COMPLETED.
End TodoProvider.

(** *** TodoProvider: restoring the collection on mount

    [JSON.parse] returns [any], so what reaches the reducer at run time
    is whatever value the stored text denotes; the static type [Todo[]]
    of the payload is erased.  The state is therefore a run-time value
    here. *)

(** The ['LOAD_TODOS'] case of [todoReducer] on run-time values:
    [return action.payload]. *)
Definition todoReducer_LOAD_TODOS (state payload : JSValue) : JSValue := payload.

(** The state [useReducer(todoReducer, [])] starts from. *)
Definition initialState : JSValue := JArray [].

(** The first effect of [TodoProvider], run once on mount; yields the
    state after it. *)
Definition loadEffect (localStorage : Storage) (state : JSValue) : M JSValue :=
  try_catch
    (let* savedTodos := getItem localStorage (lit "todos") in
     match savedTodos with
     | Some savedTodos =>
         if truthy savedTodos then
           let* parsedTodos := call (JSON_parse savedTodos) in
           ret (todoReducer_LOAD_TODOS state parsedTodos)
         else ret state
     | None => ret state
     end)
    (fun error =>
       do console_error (lit "Failed to load todos from localStorage:") then
       ret state).

Definition TodoProvider_init (localStorage : Storage) : M JSValue :=
  loadEffect localStorage initialState.

(** A [Todo] as the run-time object it is, and back: the object must
    have a string [id], a string [text] and a boolean [completed]. *)
Definition Todo_to_js (t : Todo) : JSValue :=
  JObject [(lit "id", JString (id t)); (lit "text", JString (text t));
           (lit "completed", JBool (completed t))].

Definition as_Todo (v : JSValue) : option Todo :=
  match v with
  | JObject members =>
      match get_prop (lit "id") members, get_prop (lit "text") members,
            get_prop (lit "completed") members with
      | Some (JString i), Some (JString t), Some (JBool c) => Some (mkTodo i t c)
      | _, _, _ => None
      end
  | _ => None
  end.

(** A run-time value that is a [Todo[]]. *)
Definition as_Todos (v : JSValue) : option (list Todo) :=
  match v with
  | JArray elems => mapM as_Todo elems
  | _ => None
  end.

End TodoContext.
Import TodoContext.

(** ** FilterContext *)

Module FilterContext.

(** [type FilterType = 'all' | 'active' | 'completed'] *)
Inductive FilterType := all | active | completed.

(** [useState<FilterType>('all')] *)
Definition initialFilter : FilterType := all.

(** [setFilter(filter)] replaces the current value. *)
Definition setFilter (current next : FilterType) : FilterType := next.

End FilterContext.

(** ** ThemeContext *)

Module ThemeContext.

(** [type ThemeType = 'light' | 'dark'] *)
Inductive ThemeType := light | dark.

Definition ThemeType_to_string (t : ThemeType) : jsstring :=
  match t with light => lit "light" | dark => lit "dark" end.

(** The lazy initializer of [useState<ThemeType>]. *)
Definition initialTheme (localStorage : Storage) : M ThemeType :=
  let* returned :=
    try_catch
      (let* savedTheme := getItem localStorage (lit "theme") in
       match savedTheme with
       | Some savedTheme =>
           if str_eq savedTheme (lit "light") then ret (Some light)
           else if str_eq savedTheme (lit "dark") then ret (Some dark)
           else ret None
       | None => ret None
       end)
      (fun error =>
         do console_error (lit "Failed to load theme from localStorage:") then
         ret None) in
  match returned with
  | Some savedTheme => ret savedTheme
  | None => ret light
  end.

(** [toggleTheme] *)
Definition toggleTheme (prevTheme : ThemeType) : ThemeType :=
  match prevTheme with light => dark | dark => light end.

End ThemeContext.

(** ** TodoList: the projection shown to the user *)

Module TodoList.
Import FilterContext.

Definition filteredTodos (todos : list Todo) (filter : FilterType) : list Todo :=
  match filter with
  | active => List.filter (fun todo => negb (TodoContext.completed todo)) todos
  | completed => List.filter (fun todo => TodoContext.completed todo) todos
  | all => todos
  end.

Definition completedCount (todos : list Todo) : nat :=
  length (List.filter (fun todo => TodoContext.completed todo) todos).

Definition activeCount (todos : list Todo) : nat :=
  length (List.filter (fun todo => negb (TodoContext.completed todo)) todos).

End TodoList.

(** ** A session: calls of the action functions, one after the other

    Each call comes with the reading [Date.now()] gives while it runs. *)

Module Session.

Inductive Call :=
| Add (text : jsstring)
| Toggle (id : jsstring)
| Delete (id : jsstring)
| Edit (id newText : jsstring)
| ClearCompleted.

Definition step (todos : list Todo) (c : Z * Call) : list Todo :=
  let '(now, call) := c in
  match call with
  | Add text => addTodo now todos text
  | Toggle id => toggleTodo now todos id
  | Delete id => deleteTodo now todos id
  | Edit id newText => editTodo now todos id newText
  | ClearCompleted => clearCompleted now todos
  end.

(** The collection after the calls, starting from the empty one. *)
Definition run (calls : list (Z * Call)) : list Todo := foldl step [] calls.

(** The clock readings of the [Add] calls, in order. *)
Definition add_readings (calls : list (Z * Call)) : list Z :=
  omap (fun c : Z * Call => match c.2 with Add _ => Some c.1 | _ => None end) calls.

End Session.

(** ** JSON.stringify of the collection

    [JSON.stringify(todos)] on an array of [Todo] objects: no white space,
    the properties of each object in the order [id], [text], [completed]
    in which the object literal of ['ADD_TODO'] creates them and which the
    spreads of ['TOGGLE_TODO'] and ['EDIT_TODO'] keep. *)

Module Stringify.

(** The lower-case hexadecimal digit of a number below 16. *)
Definition hex_digit (n : N) : N :=
  if (n <? 10)%N then (0x30 + n)%N else (0x61 + (n - 10))%N.

(** [UnicodeEscape]: backslash, [u] and four hexadecimal digits. *)
Definition unicode_escape (c : N) : jsstring :=
  [backslash; ch "u"; hex_digit (c / 4096 mod 16); hex_digit (c / 256 mod 16);
   hex_digit (c / 16 mod 16); hex_digit (c mod 16)]%N.

Definition is_leading_surrogate (c : N) : bool := ((0xD800 <=? c) && (c <=? 0xDBFF))%N.
Definition is_trailing_surrogate (c : N) : bool := ((0xDC00 <=? c) && (c <=? 0xDFFF))%N.

(** How [QuoteJSONString] writes a code point that is one code unit. *)
Definition quote_unit (c : N) : jsstring :=
  if (c =? 0x08)%N then [backslash; ch "b"]
  else if (c =? 0x09)%N then [backslash; ch "t"]
  else if (c =? 0x0A)%N then [backslash; ch "n"]
  else if (c =? 0x0C)%N then [backslash; ch "f"]
  else if (c =? 0x0D)%N then [backslash; ch "r"]
  else if (c =? quote)%N then [backslash; quote]
  else if (c =? backslash)%N then [backslash; backslash]
  else if ((c <? 0x20)%N || is_leading_surrogate c || is_trailing_surrogate c)
       then unicode_escape c
  else [c].

(** The characters between the quotes: a surrogate pair is written as it
    is, every other code unit by [quote_unit] (a lone surrogate escaped). *)
Fixpoint quote_body (s : jsstring) : jsstring :=
  match s with
  | [] => []
  | c :: r =>
      match r with
      | d :: r' =>
          if is_leading_surrogate c && is_trailing_surrogate d
          then c :: d :: quote_body r'
          else quote_unit c ++ quote_body r
      | [] => quote_unit c
      end
  end.

Definition QuoteJSONString (s : jsstring) : jsstring := quote :: quote_body s ++ [quote].

Definition stringify_Todo (t : Todo) : jsstring :=
  lit "{" ++ QuoteJSONString (lit "id") ++ lit ":" ++ QuoteJSONString (id t)
  ++ lit "," ++ QuoteJSONString (lit "text") ++ lit ":" ++ QuoteJSONString (text t)
  ++ lit "," ++ QuoteJSONString (lit "completed") ++ lit ":"
  ++ (if completed t then lit "true" else lit "false")
  ++ lit "}".

(** The elements of an array, separated by commas. *)
Fixpoint join_comma (l : list jsstring) : jsstring :=
  match l with
  | [] => []
  | x :: r =>
      match r with
      | [] => x
      | _ :: _ => x ++ lit "," ++ join_comma r
      end
  end.

Definition JSON_stringify (todos : list Todo) : jsstring :=
  lit "[" ++ join_comma (stringify_Todo <$> todos) ++ lit "]".

End Stringify.
Import Stringify.

(** ** The host the providers write to

    [localStorage] as a finite map from keys to values, the [data-theme]
    attribute of the document root, and the console.  Access to storage
    may be denied altogether, and a write may be refused (quota); either
    shows as an exception. *)

Module Host.

Record host := mkHost {
  items : gmap jsstring jsstring;
  accessible : bool;
  accepts : jsstring -> jsstring -> bool;
  data_theme : option jsstring;
  console : list jsstring
}.

(** A computation that reads and changes the host and may throw. *)
Definition H (A : Type) : Type := host -> host * completion A.

Definition hret {A} (a : A) : H A := fun h => (h, Normal a).

Definition hbind {A B} (m : H A) (k : A -> H B) : H B :=
  fun h =>
    match m h with
    | (h', Normal a) => k a h'
    | (h', Throw e) => (h', Throw e)
    end.

(** [try { body } catch (error) { handler }] *)
Definition htry_catch {A} (body : H A) (handler : Error -> H A) : H A :=
  fun h =>
    match body h with
    | (h', Normal a) => (h', Normal a)
    | (h', Throw e) => handler e h'
    end.

(** [localStorage.setItem(key, value)] *)
Definition setItem (key value : jsstring) : H unit :=
  fun h =>
    if accessible h && accepts h key value
    then (mkHost (<[key := value]> (items h)) (accessible h) (accepts h)
                 (data_theme h) (console h), Normal tt)
    else (h, Throw StorageError).

(** [document.documentElement.setAttribute('data-theme', value)] *)
Definition setAttribute_data_theme (value : jsstring) : H unit :=
  fun h =>
    (mkHost (items h) (accessible h) (accepts h) (Some value) (console h), Normal tt).

(** [console.error(message, error)] *)
Definition hconsole_error (message : jsstring) : H unit :=
  fun h =>
    (mkHost (items h) (accessible h) (accepts h) (data_theme h) (console h ++ [message]),
     Normal tt).

(** What [localStorage.getItem] answers on this host. *)
Definition storage_of (h : host) : Storage :=
  fun key => if accessible h then Normal (items h !! key) else Throw StorageError.

(** The second effect of [TodoProvider]: runs whenever [todos] changes. *)
Definition saveTodosEffect (todos : list Todo) : H unit :=
  htry_catch
    (setItem (lit "todos") (JSON_stringify todos))
    (fun error => hconsole_error (lit "Failed to save todos to localStorage:")).

(** The effect of [ThemeProvider]: runs whenever [theme] changes. *)
Definition saveThemeEffect (theme : ThemeContext.ThemeType) : H unit :=
  htry_catch
    (hbind (setItem (lit "theme") (ThemeContext.ThemeType_to_string theme)) (fun _ =>
     setAttribute_data_theme (ThemeContext.ThemeType_to_string theme)))
    (fun error => hconsole_error (lit "Failed to save theme to localStorage:")).

End Host.

(** ** TodoInput *)

Module TodoInput.

(** [handleSubmit]: the collection and the input value after it. *)
Definition handleSubmit (now : Z) (todos : list Todo) (inputValue : jsstring)
  : list Todo * jsstring :=
  if truthy (trim inputValue)
  then (addTodo now todos inputValue, [])
  else (todos, inputValue).

End TodoInput.

(** ** TodoItem *)

Module TodoItem.

(** The local state of the component: [isEditing] and [editText]. *)
Record state := mkState { isEditing : bool; editText : jsstring }.

(** [useState(false)] and [useState(todo.text)] *)
Definition initial (todo : Todo) : state := mkState false (text todo).

Definition handleToggle (now : Z) (todos : list Todo) (todo : Todo) : list Todo :=
  toggleTodo now todos (id todo).

Definition handleDelete (now : Z) (todos : list Todo) (todo : Todo) : list Todo :=
  deleteTodo now todos (id todo).

Definition handleEditStart (todo : Todo) (st : state) : state :=
  mkState true (text todo).

(** The [onChange] of the edit input. *)
Definition setEditText (value : jsstring) (st : state) : state :=
  mkState (isEditing st) value.

Definition handleEditSave (now : Z) (todos : list Todo) (todo : Todo) (st : state)
  : list Todo * state :=
  if truthy (trim (editText st))
  then (editTodo now todos (id todo) (editText st), mkState false (editText st))
  else (todos, mkState false (text todo)).

Definition handleEditCancel (todo : Todo) (st : state) : state :=
  mkState false (text todo).

Definition handleEditKeyDown (key : jsstring) (now : Z) (todos : list Todo) (todo : Todo)
  (st : state) : list Todo * state :=
  if str_eq key (lit "Enter") then handleEditSave now todos todo st
  else if str_eq key (lit "Escape") then (todos, handleEditCancel todo st)
  else (todos, st).

End TodoItem.

(** ** FilterButtons and what TodoList renders *)

Module View.
Import FilterContext.

(** [filter === value] on the three filter values. *)
Definition FilterType_eqb (a b : FilterType) : bool :=
  match a, b with
  | all, all | active, active | completed, completed => true
  | _, _ => false
  end.

(** The [filters] array of [FilterButtons]. *)
Definition filters : list (FilterType * string) :=
  [(all, "All"%string); (active, "Active"%string); (completed, "Completed"%string)].

(** One rendered button: its label, whether it carries the class
    [active], and the filter its click sets. *)
Record button := mkButton { label : string; is_active : bool; on_click : FilterType }.

Definition FilterButtons (filter : FilterType) : list button :=
  (fun vl : FilterType * string =>
     mkButton vl.2 (FilterType_eqb filter vl.1) (setFilter filter vl.1)) <$> filters.

(** What [TodoList] shows above the footer. *)
Inductive body :=
| TodoItems (shown : list Todo)
| NoTodosYet
| NoFilterTodos (filter : FilterType).

(** The footer: the number of items left with its noun, and the count on
    the clear button when that button is shown. *)
Record footer := mkFooter {
  items_left : nat;
  noun : string;
  clear_button : option nat
}.

Definition TodoList_body (todos : list Todo) (filter : FilterType) : body :=
  if 0 <? length (TodoList.filteredTodos todos filter) then TodoItems (TodoList.filteredTodos todos filter)
  else if length todos =? 0 then NoTodosYet
  else NoFilterTodos filter.

Definition TodoList_footer (todos : list Todo) : option footer :=
  if 0 <? length todos then
    Some (mkFooter (TodoList.activeCount todos)
            (if TodoList.activeCount todos =? 1 then "item"%string else "items"%string)
            (if 0 <? TodoList.completedCount todos then Some (TodoList.completedCount todos) else None))
  else None.

End View.

(** * Properties *)

Import ThemeContext TodoList.

(** ** [Array.prototype.filter] and [Array.prototype.map] *)

Section ArrayLemmas.
Context {A : Type}.
Implicit Types (f : A -> bool) (l : list A).

Lemma filter_sublist f l : List.filter f l `sublist_of` l.
Proof.
  induction l as [|x l IH]; simpl; [constructor|].
  destruct (f x); by constructor.
Qed.

Lemma filter_all_pass f l : Forall (fun x => f x = true) (List.filter f l).
Proof.
  induction l as [|x l IH]; simpl; [constructor|].
  destruct (f x) eqn:Hx; [by constructor | done].
Qed.

Lemma filter_greatest f l k :
  k `sublist_of` l -> Forall (fun x => f x = true) k -> k `sublist_of` List.filter f l.
Proof.
  induction 1 as [|x k l Hkl IH|x k l Hkl IH]; intros Hk; simpl.
  - constructor.
  - inversion Hk as [|? ? Hx Hk']; subst. rewrite Hx. constructor. by apply IH.
  - destruct (f x); [constructor|]; by apply IH.
Qed.

Lemma elem_of_filter f l x : x ∈ List.filter f l <-> x ∈ l /\ f x = true.
Proof. rewrite !list_elem_of_In. apply filter_In. Qed.

Lemma filter_none_fail f l : (forall x, x ∈ l -> f x = true) -> List.filter f l = l.
Proof.
  induction l as [|x l IH]; intros H; simpl; [done|].
  rewrite (H x) by constructor. f_equal. apply IH. intros y Hy. apply H. by constructor.
Qed.

Lemma map_unless_none (p : A -> bool) (g : A -> A) l :
  (forall x, x ∈ l -> p x = false) -> (fun x => if p x then g x else x) <$> l = l.
Proof.
  induction l as [|x l IH]; intros H; simpl; [done|].
  rewrite (H x) by constructor. f_equal. apply IH. intros y Hy. apply H. by constructor.
Qed.
End ArrayLemmas.

Lemma str_eq_true a b : str_eq a b = true <-> a = b.
Proof. unfold str_eq. apply bool_decide_eq_true. Qed.

Lemma str_eq_false a b : str_eq a b = false <-> a <> b.
Proof. unfold str_eq. apply bool_decide_eq_false. Qed.

Lemma truthy_false s : truthy s = false <-> s = [].
Proof. destruct s; simpl; split; congruence. Qed.

Lemma truthy_true s : truthy s = true <-> s <> [].
Proof. destruct s; simpl; split; congruence. Qed.

(** ** Adding *)

(** C3. [addTodo] with a text that trims to the empty string leaves the
    collection as it is; with any other text it returns the old
    collection followed by one new item whose text is the trimmed input
    and whose [completed] is false, every earlier item staying where it
    was. *)
Theorem addTodo_appends_trimmed (now : Z) (todos : list Todo) (s : jsstring) :
  (trim s = [] -> addTodo now todos s = todos) /\
  (trim s <> [] ->
     exists item,
       addTodo now todos s = todos ++ [item] /\
       text item = trim s /\ completed item = false /\
       length (addTodo now todos s) = S (length todos) /\
       forall k t, todos !! k = Some t -> addTodo now todos s !! k = Some t).
Proof.
  unfold addTodo, dispatch. split; intros Hs.
  - apply truthy_false in Hs. by rewrite Hs.
  - apply truthy_true in Hs. rewrite Hs. simpl.
    eexists. split; [reflexivity|]. simpl. repeat split.
    + rewrite length_app. simpl. lia.
    + intros k t Hk. by apply lookup_app_l_Some.
Qed.

Lemma addTodo_appends_trimmed_witness :
  addTodo 7 [mkTodo (lit "1") (lit "a") true] (lit "  ") = [mkTodo (lit "1") (lit "a") true] /\
  exists item,
    addTodo 7 [mkTodo (lit "1") (lit "a") true] (lit " Buy milk ")
      = [mkTodo (lit "1") (lit "a") true] ++ [item] /\
    text item = trim (lit " Buy milk ") /\ completed item = false /\
    length (addTodo 7 [mkTodo (lit "1") (lit "a") true] (lit " Buy milk ")) = 2 /\
    forall k t, [mkTodo (lit "1") (lit "a") true] !! k = Some t ->
                addTodo 7 [mkTodo (lit "1") (lit "a") true] (lit " Buy milk ") !! k = Some t.
Proof.
  split.
  - apply (proj1 (addTodo_appends_trimmed 7 [mkTodo (lit "1") (lit "a") true] (lit "  "))).
    reflexivity.
  - apply (proj2 (addTodo_appends_trimmed 7 [mkTodo (lit "1") (lit "a") true] (lit " Buy milk "))).
    vm_compute. discriminate.
Defined.

(** ** Editing *)

Lemma editTodo_lookup now todos i newText k t :
  trim newText <> [] -> todos !! k = Some t ->
  editTodo now todos i newText !! k = Some (edited i (trim newText) t).
Proof.
  intros Hs Hk. unfold editTodo, dispatch. apply truthy_true in Hs. rewrite Hs. simpl.
  rewrite list_lookup_fmap, Hk. simpl. f_equal.
  unfold edited, str_eq. by destruct (decide (id t = i)); [rewrite bool_decide_eq_true_2|rewrite bool_decide_eq_false_2].
Qed.

(** C4. [editTodo] with a text that trims to the empty string leaves the
    collection as it is; otherwise the collection keeps its length and
    order, the item at each position whose id matches gets the trimmed
    text while keeping its [id] and [completed], and every item whose id
    does not match stays as it was. *)
Theorem editTodo_replaces_text_only (now : Z) (todos : list Todo) (i newText : jsstring) :
  (trim newText = [] -> editTodo now todos i newText = todos) /\
  (trim newText <> [] ->
     length (editTodo now todos i newText) = length todos /\
     forall k t, todos !! k = Some t ->
       exists t', editTodo now todos i newText !! k = Some t' /\
         id t' = id t /\ completed t' = completed t /\
         (id t = i -> text t' = trim newText) /\
         (id t <> i -> t' = t)).
Proof.
  split; intros Hs.
  - unfold editTodo. apply truthy_false in Hs. by rewrite Hs.
  - split.
    + unfold editTodo, dispatch. apply truthy_true in Hs. rewrite Hs. simpl.
      apply length_fmap.
    + intros k t Hk. exists (edited i (trim newText) t).
      split; [by apply editTodo_lookup|].
      unfold edited. destruct (decide (id t = i)); simpl; naive_solver.
Qed.

Lemma editTodo_replaces_text_only_witness :
  editTodo 0 [mkTodo (lit "1") (lit "a") true; mkTodo (lit "2") (lit "b") false] (lit "1") (lit "   ")
    = [mkTodo (lit "1") (lit "a") true; mkTodo (lit "2") (lit "b") false] /\
  (length (editTodo 0 [mkTodo (lit "1") (lit "a") true; mkTodo (lit "2") (lit "b") false]
             (lit "1") (lit " c ")) = 2 /\
   forall k t,
     [mkTodo (lit "1") (lit "a") true; mkTodo (lit "2") (lit "b") false] !! k = Some t ->
     exists t',
       editTodo 0 [mkTodo (lit "1") (lit "a") true; mkTodo (lit "2") (lit "b") false]
         (lit "1") (lit " c ") !! k = Some t' /\
       id t' = id t /\ completed t' = completed t /\
       (id t = lit "1" -> text t' = trim (lit " c ")) /\
       (id t <> lit "1" -> t' = t)).
Proof.
  split.
  - apply (proj1 (editTodo_replaces_text_only 0
      [mkTodo (lit "1") (lit "a") true; mkTodo (lit "2") (lit "b") false] (lit "1") (lit "   "))).
    reflexivity.
  - apply (proj2 (editTodo_replaces_text_only 0
      [mkTodo (lit "1") (lit "a") true; mkTodo (lit "2") (lit "b") false] (lit "1") (lit " c "))).
    vm_compute. discriminate.
Defined.

(** C10. [editTodo] with a text that does not trim to the empty string
    and an id that no item has leaves the collection as it is. *)
Theorem editTodo_unknown_id_noop (now : Z) (todos : list Todo) (i newText : jsstring) :
  trim newText <> [] -> i ∉ id <$> todos -> editTodo now todos i newText = todos.
Proof.
  intros Hs Hi. unfold editTodo, dispatch. apply truthy_true in Hs. rewrite Hs. simpl.
  apply (map_unless_none (fun todo => str_eq (id todo) i)).
  intros t Ht. apply str_eq_false. intros Heq. apply Hi. rewrite <- Heq.
  by apply list_elem_of_fmap_2.
Qed.

Lemma editTodo_unknown_id_noop_witness :
  editTodo 0 [mkTodo (lit "1") (lit "a") true; mkTodo (lit "2") (lit "b") false] (lit "3") (lit "c")
    = [mkTodo (lit "1") (lit "a") true; mkTodo (lit "2") (lit "b") false].
Proof.
  apply (editTodo_unknown_id_noop 0
    [mkTodo (lit "1") (lit "a") true; mkTodo (lit "2") (lit "b") false] (lit "3") (lit "c")).
  - vm_compute. discriminate.
  - vm_compute. intros H. repeat (apply elem_of_cons in H as [H|H]; [discriminate H|]).
    by apply elem_of_nil in H.
Defined.

(** ** Removing *)

(** C5. [clearCompleted] returns the items with [completed = false], in
    their order: the result is a subsequence of the collection, holds no
    completed item, and every subsequence of the collection without
    completed items is a subsequence of it; so no active item is removed
    and no completed item remains. *)
Theorem clearCompleted_keeps_active (now : Z) (todos : list Todo) :
  clearCompleted now todos `sublist_of` todos /\
  Forall (fun t => completed t = false) (clearCompleted now todos) /\
  (forall l, l `sublist_of` todos -> Forall (fun t => completed t = false) l ->
             l `sublist_of` clearCompleted now todos) /\
  (forall t, t ∈ todos -> completed t = false -> t ∈ clearCompleted now todos) /\
  (forall t, t ∈ clearCompleted now todos -> completed t = true -> False).
Proof.
  unfold clearCompleted, dispatch. simpl.
  set (f := fun todo => negb (completed todo)).
  assert (Hf : forall t, f t = true <-> completed t = false).
  { intros t. unfold f. by destruct (completed t). }
  repeat split.
  - apply filter_sublist.
  - apply (Forall_impl _ _ _ (filter_all_pass f todos)). intros t. apply Hf.
  - intros l Hl Hall. apply filter_greatest; [done|].
    apply (Forall_impl _ _ _ Hall). intros t. apply Hf.
  - intros t Ht Hc. apply elem_of_filter. split; [done|]. by apply Hf.
  - intros t Ht Hc. apply elem_of_filter in Ht as [_ Ht]. apply Hf in Ht. congruence.
Qed.

(** C9. [deleteTodo] removes every item whose id is the given one, also
    when several items share it: the result is a subsequence of the
    collection, holds no item of that id, and every subsequence of the
    collection without items of that id is a subsequence of it. *)
Theorem deleteTodo_removes_every_match (now : Z) (todos : list Todo) (i : jsstring) :
  deleteTodo now todos i `sublist_of` todos /\
  Forall (fun t => id t <> i) (deleteTodo now todos i) /\
  (forall l, l `sublist_of` todos -> Forall (fun t => id t <> i) l ->
             l `sublist_of` deleteTodo now todos i) /\
  (forall t, t ∈ todos -> id t <> i -> t ∈ deleteTodo now todos i).
Proof.
  unfold deleteTodo, dispatch. simpl.
  set (f := fun todo => negb (str_eq (id todo) i)).
  assert (Hf : forall t, f t = true <-> id t <> i).
  { intros t. unfold f. rewrite negb_true_iff. apply str_eq_false. }
  repeat split.
  - apply filter_sublist.
  - apply (Forall_impl _ _ _ (filter_all_pass f todos)). intros t. apply Hf.
  - intros l Hl Hall. apply filter_greatest; [done|].
    apply (Forall_impl _ _ _ Hall). intros t. apply Hf.
  - intros t Ht Hc. apply elem_of_filter. split; [done|]. by apply Hf.
Qed.

Example deleteTodo_shared_id :
  deleteTodo 0 [mkTodo (lit "1") (lit "a") true; mkTodo (lit "2") (lit "b") false;
                mkTodo (lit "1") (lit "c") false; mkTodo (lit "3") (lit "d") true] (lit "1")
  = [mkTodo (lit "2") (lit "b") false; mkTodo (lit "3") (lit "d") true].
Proof. reflexivity. Qed.

(** ** Toggling *)

Lemma toggleTodo_lookup now todos i k t :
  todos !! k = Some t -> toggleTodo now todos i !! k = Some (toggled i t).
Proof.
  intros Hk. unfold toggleTodo, dispatch. simpl.
  rewrite list_lookup_fmap, Hk. simpl. f_equal.
  unfold toggled, str_eq.
  by destruct (decide (id t = i)); [rewrite bool_decide_eq_true_2|rewrite bool_decide_eq_false_2].
Qed.

Lemma toggled_twice i t : toggled i (toggled i t) = t.
Proof.
  unfold toggled. destruct (decide (id t = i)) as [Hi|Hi]; simpl.
  - rewrite decide_True by done. destruct t as [? ? []]; reflexivity.
  - by rewrite decide_False.
Qed.

(** One toggle does flip the flag of every item of that id. *)
Lemma toggleTodo_flips now todos i k t :
  todos !! k = Some t -> id t = i ->
  toggleTodo now todos i !! k = Some (mkTodo (id t) (text t) (negb (completed t))).
Proof.
  intros Hk Hi. rewrite (toggleTodo_lookup _ _ _ _ _ Hk). unfold toggled.
  by rewrite decide_True.
Qed.

Lemma toggleTodo_twice now now' todos i :
  toggleTodo now' (toggleTodo now todos i) i = todos.
Proof.
  apply list_eq. intros k. destruct (todos !! k) as [t|] eqn:Hk.
  - rewrite (toggleTodo_lookup _ _ _ _ _ (toggleTodo_lookup now _ i _ _ Hk)).
    by rewrite toggled_twice.
  - unfold toggleTodo, dispatch. simpl. by rewrite !list_lookup_fmap, Hk.
Qed.

(** C6. In a collection with pairwise distinct ids that holds the id,
    [toggleTodo] applied twice gives back the collection: the item's
    [completed] is what it was, and every other item and the order are
    unchanged.  [toggleTodo] with an id that no item has leaves the
    collection as it is. *)
Theorem toggleTodo_twice_restores (now now' : Z) (todos : list Todo) (i : jsstring) :
  (NoDup (id <$> todos) -> i ∈ id <$> todos ->
     toggleTodo now' (toggleTodo now todos i) i = todos /\
     forall k t, todos !! k = Some t ->
       exists t', toggleTodo now' (toggleTodo now todos i) i !! k = Some t' /\
                  completed t' = completed t /\ (id t <> i -> t' = t)) /\
  (i ∉ id <$> todos -> toggleTodo now todos i = todos).
Proof.
  split.
  - intros _ _. split; [apply toggleTodo_twice|].
    intros k t Hk. exists t. by rewrite toggleTodo_twice.
  - intros Hi. unfold toggleTodo, dispatch. simpl.
    apply (map_unless_none (fun todo => str_eq (id todo) i)).
    intros t Ht. apply str_eq_false. intros Heq. apply Hi. rewrite <- Heq.
    by apply list_elem_of_fmap_2.
Qed.

Lemma toggleTodo_twice_restores_witness :
  (toggleTodo 2 (toggleTodo 1 [mkTodo (lit "1") (lit "a") true; mkTodo (lit "2") (lit "b") false]
                  (lit "2")) (lit "2")
     = [mkTodo (lit "1") (lit "a") true; mkTodo (lit "2") (lit "b") false] /\
   forall k t,
     [mkTodo (lit "1") (lit "a") true; mkTodo (lit "2") (lit "b") false] !! k = Some t ->
     exists t',
       toggleTodo 2 (toggleTodo 1 [mkTodo (lit "1") (lit "a") true; mkTodo (lit "2") (lit "b") false]
                       (lit "2")) (lit "2") !! k = Some t' /\
       completed t' = completed t /\ (id t <> lit "2" -> t' = t)) /\
  toggleTodo 1 [mkTodo (lit "1") (lit "a") true; mkTodo (lit "2") (lit "b") false] (lit "3")
    = [mkTodo (lit "1") (lit "a") true; mkTodo (lit "2") (lit "b") false].
Proof.
  split.
  - apply (proj1 (toggleTodo_twice_restores 1 2
      [mkTodo (lit "1") (lit "a") true; mkTodo (lit "2") (lit "b") false] (lit "2"))).
    + vm_compute. repeat constructor.
      * intros H. repeat (apply elem_of_cons in H as [H|H]; [discriminate H|]).
        by apply elem_of_nil in H.
      * intros H. by apply elem_of_nil in H.
    + vm_compute. apply list_elem_of_further, list_elem_of_here.
  - apply (proj2 (toggleTodo_twice_restores 1 2
      [mkTodo (lit "1") (lit "a") true; mkTodo (lit "2") (lit "b") false] (lit "3"))).
    vm_compute. intros H. repeat (apply elem_of_cons in H as [H|H]; [discriminate H|]).
    by apply elem_of_nil in H.
Defined.

(** ** The projection *)

Lemma filter_complement_perm {A} (f : A -> bool) (l : list A) :
  List.filter (fun x => negb (f x)) l ++ List.filter f l ≡ₚ l.
Proof.
  induction l as [|x l IH]; simpl; [done|].
  destruct (f x); simpl.
  - rewrite <- Permutation_middle. by constructor.
  - by constructor.
Qed.

(** C7. The active and the completed projection are subsequences of the
    collection that together hold each of its items exactly once; their
    lengths add up to [activeCount + completedCount], which is the length
    of the collection; the projection for [all] is the collection. *)
Theorem filteredTodos_partition (todos : list Todo) :
  filteredTodos todos FilterContext.active `sublist_of` todos /\
  filteredTodos todos FilterContext.completed `sublist_of` todos /\
  filteredTodos todos FilterContext.active ++ filteredTodos todos FilterContext.completed ≡ₚ todos /\
  (forall t, t ∈ todos ->
     (t ∈ filteredTodos todos FilterContext.active /\
      t ∉ filteredTodos todos FilterContext.completed) \/
     (t ∈ filteredTodos todos FilterContext.completed /\
      t ∉ filteredTodos todos FilterContext.active)) /\
  length (filteredTodos todos FilterContext.active)
    + length (filteredTodos todos FilterContext.completed)
    = activeCount todos + completedCount todos /\
  activeCount todos + completedCount todos = length todos /\
  filteredTodos todos FilterContext.all = todos /\
  length (filteredTodos todos FilterContext.all) = length todos.
Proof.
  unfold filteredTodos, activeCount, completedCount.
  pose proof (filter_complement_perm completed todos) as Hperm.
  repeat split; try apply filter_sublist; try done.
  - intros t Ht. rewrite !elem_of_filter. destruct (completed t); simpl.
    + right. split; [done|]. by intros [_ ?].
    + left. split; [done|]. by intros [_ ?].
  - rewrite <- length_app. by rewrite Hperm.
Qed.

(** ** Restoring the theme *)

(** C8. The initializer of the theme reads key ['theme'] from storage
    once and never throws.  It returns the stored value when that is
    ['light'] or ['dark'], and ['light'] when the key is absent, holds
    any other string, or the read throws. *)
Theorem initialTheme_restores_or_light (localStorage : Storage) :
  exists evs theme,
    initialTheme localStorage = (evs, Normal theme) /\
    storage_reads evs = [lit "theme"] /\
    match localStorage (lit "theme") with
    | Normal (Some saved) =>
        if decide (saved = lit "light" \/ saved = lit "dark")
        then ThemeType_to_string theme = saved
        else theme = light
    | Normal None => theme = light
    | Throw _ => theme = light
    end.
Proof.
  unfold initialTheme, getItem, try_catch, bind, ret, console_error.
  destruct (localStorage (lit "theme")) as [[saved|]|e].
  - unfold str_eq. destruct (decide (saved = lit "light")) as [Hl|Hl].
    + rewrite (bool_decide_eq_true_2 _ Hl).
      eexists _, _. split; [reflexivity|]. split; [reflexivity|].
      rewrite decide_True by (by left). by rewrite Hl.
    + rewrite (bool_decide_eq_false_2 _ Hl).
      destruct (decide (saved = lit "dark")) as [Hd|Hd].
      * rewrite (bool_decide_eq_true_2 _ Hd).
        eexists _, _. split; [reflexivity|]. split; [reflexivity|].
        rewrite decide_True by (by right). by rewrite Hd.
      * rewrite (bool_decide_eq_false_2 _ Hd).
        eexists _, _. split; [reflexivity|]. split; [reflexivity|].
        rewrite decide_False by (intros [?|?]; done). reflexivity.
  - eexists _, _. split; [reflexivity|]. split; reflexivity.
  - eexists _, _. split; [reflexivity|]. split; reflexivity.
Qed.

Example initialTheme_dark :
  initialTheme (storage_holding [(lit "theme", lit "dark")]) = ([GetItem (lit "theme")], Normal dark).
Proof. reflexivity. Qed.

Example initialTheme_other :
  initialTheme (storage_holding [(lit "theme", lit "Dark")]) = ([GetItem (lit "theme")], Normal light).
Proof. reflexivity. Qed.

Example initialTheme_unavailable :
  initialTheme storage_unavailable
  = ([GetItem (lit "theme"); ConsoleError (lit "Failed to load theme from localStorage:")],
     Normal light).
Proof. reflexivity. Qed.

(** ** JSON.parse is total: the fuel it supplies is never used up *)

Section ParserFuel.

Lemma skip_ws_le s : length (skip_ws s) <= length s.
Proof. induction s as [|c r IH]; simpl; [lia|]. destruct (is_json_ws c); simpl; lia. Qed.

Lemma skip_ws_cons_le s c r : skip_ws s = c :: r -> S (length r) <= length s.
Proof. intros H. pose proof (skip_ws_le s) as Hle. rewrite H in Hle. exact Hle. Qed.

Lemma parse_string_body_le s : forall acc str rest,
  parse_string_body s acc = Some (str, rest) -> length rest <= length s.
Proof.
  induction s as [s IH] using (induction_ltof1 _ (@length N)). unfold ltof in IH.
  intros acc str rest H. destruct s as [|c r]; simpl in H; [done|].
  repeat (case_match; simplify_eq; simpl in * );
    try (apply IH in H; simpl in * ); lia.
Qed.

Lemma digits_le s d rest : digits s = (d, rest) -> length rest <= length s.
Proof.
  revert d rest. induction s as [|c r IH]; simpl; intros d rest.
  - intros [= _ <-]. simpl. lia.
  - destruct (is_digit c).
    + destruct (digits r) as [d' rest'] eqn:Hd. intros [= _ <-].
      specialize (IH _ _ eq_refl). lia.
    + intros [= _ <-]. simpl. lia.
Qed.

Lemma digits1_le s d rest : digits1 s = Some (d, rest) -> length rest <= length s.
Proof.
  unfold digits1. destruct (digits s) as [[|x d'] rest'] eqn:Hd; [done|].
  intros [= _ <-]. by apply digits_le in Hd.
Qed.

Lemma parse_number_le s lexeme rest :
  parse_number s = Some (lexeme, rest) -> length rest <= length s.
Proof.
  unfold parse_number. intros H.
  repeat (case_match; simplify_eq; simpl in *);
    repeat match goal with
           | H : digits1 _ = Some _ |- _ => apply digits1_le in H; simpl in H
           end; lia.
Qed.

Lemma strip_prefix_le p s rest : strip_prefix p s = Some rest -> length rest <= length s.
Proof.
  revert s. induction p as [|a p IH]; intros s; simpl.
  - intros [= <-]. lia.
  - destruct s as [|b s]; [done|]. destruct (a =? b)%N; [|done].
    intros H. apply IH in H. simpl. lia.
Qed.

Lemma parse_atom_le s v rest : parse_atom s = POk v rest -> length rest <= length s.
Proof.
  unfold parse_atom. intros H.
  repeat (case_match; simplify_eq);
    eauto using strip_prefix_le, parse_number_le.
Qed.

Lemma parse_atom_fuel s : parse_atom s <> POutOfFuel.
Proof. unfold parse_atom. repeat case_match; done. Qed.

Local Arguments parse_atom : simpl never.
Local Arguments parse_string_body : simpl never.

(** Collects what the equations in the context say about lengths. *)
Ltac length_facts :=
  repeat match goal with
         | H : skip_ws _ = _ :: _ |- _ => apply skip_ws_cons_le in H
         | H : parse_string_body _ _ = Some _ |- _ => apply parse_string_body_le in H
         | H : parse_atom _ = POk _ _ |- _ => apply parse_atom_le in H
         end.

(** What a parser leaves over is no longer than what it was given. *)
Lemma parse_rest_le fuel :
  (forall s v rest, parse_value fuel s = POk v rest -> length rest <= length s) /\
  (forall s acc v rest, parse_elements fuel s acc = POk v rest -> length rest <= length s) /\
  (forall s acc v rest, parse_members fuel s acc = POk v rest -> length rest <= length s).
Proof.
  induction fuel as [|n (IHv & IHe & IHm)]; [by repeat split|].
  split; [|split]; intros; simpl in *;
    repeat (case_match; simplify_eq);
    repeat match goal with
           | H : parse_value n _ = POk _ _ |- _ => apply IHv in H
           | H : parse_elements n _ _ = POk _ _ |- _ => apply IHe in H
           | H : parse_members n _ _ = POk _ _ |- _ => apply IHm in H
           end;
    length_facts; simpl in *; lia.
Qed.

(** Fuel of twice the length of the input, and one or two more, is
    never used up. *)
Lemma parse_enough_fuel fuel :
  (forall s, 2 * length s + 1 <= fuel -> parse_value fuel s <> POutOfFuel) /\
  (forall s acc, 2 * length s + 2 <= fuel -> parse_elements fuel s acc <> POutOfFuel) /\
  (forall s acc, 2 * length s + 2 <= fuel -> parse_members fuel s acc <> POutOfFuel).
Proof.
  induction fuel as [|n (IHv & IHe & IHm)]; [repeat split; intros; lia|].
  split; [|split]; intros ? **; intros Hout; simpl in *;
    repeat (case_match; simplify_eq);
    try (by eapply parse_atom_fuel);
    match goal with
    | H : parse_value n _ = POutOfFuel |- _ => apply IHv in H; [done|]
    | H : parse_elements n _ _ = POutOfFuel |- _ => apply IHe in H; [done|]
    | H : parse_members n _ _ = POutOfFuel |- _ => apply IHm in H; [done|]
    end;
    repeat match goal with
           | H : parse_value n _ = POk _ _ |- _ => apply (proj1 (parse_rest_le n)) in H
           end;
    length_facts; simpl in *; lia.
Qed.

(** [JSON.parse] throws only where the text is not JSON: its parser
    never runs out of fuel. *)
Lemma JSON_parse_fuel text :
  parse_value (2 * length text + 2) text <> POutOfFuel.
Proof. apply parse_enough_fuel. lia. Qed.

End ParserFuel.

(** ** Identifiers *)

Lemma lit_inj a b : lit a = lit b -> a = b.
Proof.
  unfold lit. intros H.
  rewrite <- (string_of_list_ascii_of_string a), <- (string_of_list_ascii_of_string b).
  f_equal. revert H. generalize (list_ascii_of_string a) (list_ascii_of_string b).
  intros l. induction l as [|x l IH]; intros [|y k]; simpl; try done.
  intros [= Hxy Hlk]. f_equal; [|by apply IH].
  by rewrite <- (ascii_N_embedding x), <- (ascii_N_embedding y), Hxy.
Qed.

Lemma to_int_proper n : Z.to_int n <> Decimal.Pos Decimal.Nil /\ Z.to_int n <> Decimal.Neg Decimal.Nil.
Proof.
  destruct n as [|p|p]; simpl; split; try done; intros [= H];
    by apply DecimalPos.Unsigned.to_uint_nonnil in H.
Qed.

(** Distinct clock readings give distinct identifiers. *)
Lemma toString_inj a b : toString a = toString b -> a = b.
Proof.
  unfold toString. intros H. apply lit_inj in H.
  apply DecimalZ.to_int_inj.
  destruct (to_int_proper a) as [Ha1 Ha2], (to_int_proper b) as [Hb1 Hb2].
  pose proof (NilZero.isi _ Ha1 Ha2) as Ea. pose proof (NilZero.isi _ Hb1 Hb2) as Eb.
  rewrite H in Ea. congruence.
Qed.

Lemma ids_fmap_preserved (g : Todo -> Todo) (l : list Todo) :
  (forall t, id (g t) = id t) -> id <$> (g <$> l) = id <$> l.
Proof. intros Hg. rewrite <- list_fmap_compose. apply list_fmap_ext. intros ? t _. apply Hg. Qed.

Lemma ids_filter_sublist (f : Todo -> bool) (l : list Todo) :
  id <$> List.filter f l `sublist_of` id <$> l.
Proof. apply fmap_sublist, filter_sublist. Qed.

(** Every id in the collection is the rendering of the reading of an
    [Add] call, in the order of the calls. *)
Lemma run_ids_from_readings calls :
  id <$> Session.run calls `sublist_of` toString <$> Session.add_readings calls.
Proof.
  unfold Session.run, Session.add_readings.
  induction calls as [|[now c] calls IH] using rev_ind; [constructor|].
  rewrite foldl_snoc, omap_app, fmap_app. simpl.
  destruct c as [s|i|i|i s|]; simpl; rewrite ?app_nil_r.
  - unfold addTodo, dispatch. destruct (truthy (trim s)); simpl.
    + rewrite fmap_app. by apply sublist_app.
    + by apply sublist_inserts_r.
  - unfold toggleTodo, dispatch. simpl. rewrite ids_fmap_preserved; [done|].
    intros t. by destruct (str_eq (id t) i).
  - unfold deleteTodo, dispatch. simpl. etrans; [apply ids_filter_sublist|done].
  - unfold editTodo, dispatch. destruct (truthy (trim s)); simpl; [|done].
    rewrite ids_fmap_preserved; [done|]. intros t. by destruct (str_eq (id t) i).
  - unfold clearCompleted, dispatch. simpl. etrans; [apply ids_filter_sublist|done].
Qed.

(** X26. When no two [Add] calls of a session see the same clock reading,
    the ids in the collection are pairwise distinct after any calls. *)
Lemma run_ids_distinct calls :
  NoDup (Session.add_readings calls) -> NoDup (id <$> Session.run calls).
Proof.
  intros H. eapply sublist_NoDup; [|apply run_ids_from_readings].
  apply NoDup_fmap_2_strong; [|done]. intros a b _ _. apply toString_inj.
Qed.

(** Two [addTodo] calls that see the same reading give two items of the
    same id. *)
Lemma addTodo_twice_same_reading now todos a b :
  trim a <> [] -> trim b <> [] ->
  exists t1 t2, addTodo now (addTodo now todos a) b = todos ++ [t1; t2] /\ id t1 = id t2.
Proof.
  intros Ha Hb. unfold addTodo, dispatch.
  apply truthy_true in Ha, Hb. rewrite Ha, Hb. simpl.
  eexists _, _. rewrite <- app_assoc. split; reflexivity.
Qed.

(** C1. Two [addTodo] calls within one millisecond: [Date.now()] returns
    the same reading to both, and the two new items get the same id, so
    the ids of the collection are not pairwise distinct. *)
Theorem addTodo_same_millisecond_collides :
  Session.run [(1700000000000%Z, Session.Add (lit "Buy milk"));
               (1700000000000%Z, Session.Add (lit "Walk dog"))]
  = [mkTodo (lit "1700000000000") (lit "Buy milk") false;
     mkTodo (lit "1700000000000") (lit "Walk dog") false] /\
  ~ NoDup (id <$> Session.run [(1700000000000%Z, Session.Add (lit "Buy milk"));
                               (1700000000000%Z, Session.Add (lit "Walk dog"))]).
Proof.
  split; [by vm_compute|].
  intros H. vm_compute in H. apply NoDup_cons_1_1 in H. apply H. constructor.
Qed.

(** ** Restoring the collection *)

(** What the load effect does, by what storage answers. *)
Lemma TodoProvider_init_cases (localStorage : Storage) :
  TodoProvider_init localStorage =
    match localStorage (lit "todos") with
    | Throw _ =>
        ([GetItem (lit "todos"); ConsoleError (lit "Failed to load todos from localStorage:")],
         Normal initialState)
    | Normal None => ([GetItem (lit "todos")], Normal initialState)
    | Normal (Some saved) =>
        if truthy saved then
          match JSON_parse saved with
          | Normal parsed => ([GetItem (lit "todos")], Normal parsed)
          | Throw _ =>
              ([GetItem (lit "todos");
                ConsoleError (lit "Failed to load todos from localStorage:")],
               Normal initialState)
          end
        else ([GetItem (lit "todos")], Normal initialState)
    end.
Proof.
  unfold TodoProvider_init, loadEffect, getItem, try_catch, bind, ret, call, console_error,
    todoReducer_LOAD_TODOS.
  destruct (localStorage (lit "todos")) as [[saved|]|e]; try reflexivity.
  destruct (truthy saved); [|reflexivity].
  destruct (JSON_parse saved); reflexivity.
Qed.

(** On a stored value that is a [Todo[]], the run-time ['LOAD_TODOS'] case
    and the typed one agree. *)
Lemma todoReducer_LOAD_TODOS_typed now state state' parsed payload :
  as_Todos parsed = Some payload ->
  as_Todos (todoReducer_LOAD_TODOS state' parsed)
  = Some (todoReducer now state (LOAD_TODOS payload)).
Proof. done. Qed.

(** The load effect never throws. *)
Lemma TodoProvider_init_total (localStorage : Storage) :
  exists evs state, TodoProvider_init localStorage = (evs, Normal state).
Proof.
  rewrite TodoProvider_init_cases.
  destruct (localStorage (lit "todos")) as [[saved|]|e]; eauto.
  destruct (truthy saved); eauto. destruct (JSON_parse saved); eauto.
Qed.

(** C2, as the code has it.  Restoring never throws.  The collection is
    the empty one when key ['todos'] is absent, when it holds the empty
    string, when what it holds is not JSON, and when the read throws.  A
    stored JSON array becomes the collection as it is, whatever its
    items are. *)
Theorem TodoProvider_init_fallback (localStorage : Storage) :
  (exists evs state, TodoProvider_init localStorage = (evs, Normal state)) /\
  ((exists e, localStorage (lit "todos") = Throw e) \/
   localStorage (lit "todos") = Normal None \/
   localStorage (lit "todos") = Normal (Some []) \/
   (exists saved e, localStorage (lit "todos") = Normal (Some saved) /\
                    JSON_parse saved = Throw e) ->
   exists evs, TodoProvider_init localStorage = (evs, Normal initialState)) /\
  (forall saved elems,
     localStorage (lit "todos") = Normal (Some saved) ->
     JSON_parse saved = Normal (JArray elems) ->
     TodoProvider_init localStorage = ([GetItem (lit "todos")], Normal (JArray elems))).
Proof.
  split; [apply TodoProvider_init_total|]. rewrite TodoProvider_init_cases. split.
  - intros [[e ->]|[->|[->|(saved & e & -> & Hp)]]]; simpl; eauto.
    rewrite Hp. destruct (truthy saved); eauto.
  - intros saved elems -> Hp. rewrite Hp.
    destruct saved as [|c r]; [by vm_compute in Hp|]. reflexivity.
Qed.

Lemma TodoProvider_init_fallback_witness :
  (exists evs state,
     TodoProvider_init (storage_holding [(lit "todos", json_lit "[{'id':'1',")])
       = (evs, Normal state)) /\
  (exists evs,
     TodoProvider_init (storage_holding [(lit "todos", json_lit "[{'id':'1',")])
       = (evs, Normal initialState)) /\
  TodoProvider_init
    (storage_holding [(lit "todos", json_lit "[{'id':'1','text':'a','completed':true}]")])
  = ([GetItem (lit "todos")],
     Normal (JArray [Todo_to_js (mkTodo (lit "1") (lit "a") true)])).
Proof.
  split; [|split].
  - apply (proj1 (TodoProvider_init_fallback
      (storage_holding [(lit "todos", json_lit "[{'id':'1',")]))).
  - apply (proj1 (proj2 (TodoProvider_init_fallback
      (storage_holding [(lit "todos", json_lit "[{'id':'1',")])))).
    right. right. right. exists (json_lit "[{'id':'1',"), SyntaxError.
    split; vm_compute; reflexivity.
  - apply (proj2 (proj2 (TodoProvider_init_fallback
      (storage_holding [(lit "todos", json_lit "[{'id':'1','text':'a','completed':true}]")])))
      (json_lit "[{'id':'1','text':'a','completed':true}]")
      [Todo_to_js (mkTodo (lit "1") (lit "a") true)]);
      vm_compute; reflexivity.
Defined.

(** C2, as stated, fails: a stored array whose item has no [text] is
    not a [Todo[]], and the stored literal [null] is no array at all, yet
    each becomes the state as it is, not the empty collection. *)
Lemma TodoProvider_init_loads_unvalidated :
  as_Todos (JArray [JObject [(lit "id", JString (lit "1")); (lit "completed", JBool false)]]) = None /\
  TodoProvider_init (storage_holding [(lit "todos", json_lit "[{'id':'1','completed':false}]")])
  = ([GetItem (lit "todos")],
     Normal (JArray [JObject [(lit "id", JString (lit "1")); (lit "completed", JBool false)]])) /\
  (TodoProvider_init
     (storage_holding [(lit "todos", json_lit "[{'id':'1','completed':false}]")])).2
  <> Normal initialState /\
  TodoProvider_init (storage_holding [(lit "todos", lit "null")])
  = ([GetItem (lit "todos")], Normal JNull) /\
  (TodoProvider_init (storage_holding [(lit "todos", lit "null")])).2 <> Normal initialState.
Proof.
  repeat split; try (vm_compute; reflexivity); vm_compute; discriminate.
Qed.

Example TodoProvider_init_missing :
  TodoProvider_init (storage_holding []) = ([GetItem (lit "todos")], Normal initialState).
Proof. reflexivity. Qed.

Example TodoProvider_init_wrong_types :
  TodoProvider_init
    (storage_holding [(lit "todos", json_lit "[{'id':1,'text':'a','completed':'no'}]")])
  = ([GetItem (lit "todos")],
     Normal (JArray [JObject [(lit "id", JNumber (lit "1")); (lit "text", JString (lit "a"));
                              (lit "completed", JString (lit "no"))]])).
Proof. vm_compute. reflexivity. Qed.

Example as_Todos_roundtrip :
  as_Todos (JArray [Todo_to_js (mkTodo (lit "1") (lit "a") true)])
  = Some [mkTodo (lit "1") (lit "a") true].
Proof. vm_compute. reflexivity. Qed.

(** ** A few runs of the built-ins *)

Example trim_ex : trim (lit "  Buy milk ") = lit "Buy milk".
Proof. reflexivity. Qed.

Example trim_nbsp : trim [0x00A0; 0x3000; 0x61; 0x20; 0x62; 0x2028]%N = [0x61; 0x20; 0x62]%N.
Proof. reflexivity. Qed.

Example toString_ex : toString 1700000000000 = lit "1700000000000".
Proof. vm_compute. reflexivity. Qed.

Example JSON_parse_nested :
  JSON_parse (json_lit " [ {'id':'1', 'completed' : false}, null, -12.5e+3, 'aA\n' ] ")
  = Normal (JArray [JObject [(lit "id", JString (lit "1")); (lit "completed", JBool false)];
                    JNull; JNumber (lit "-12.5e+3"); JString [0x61; 0x41; 0x0A]%N]).
Proof. vm_compute. reflexivity. Qed.

Example JSON_parse_trailing_comma : JSON_parse (json_lit "[1,]") = Throw SyntaxError.
Proof. vm_compute. reflexivity. Qed.

Example JSON_parse_leading_zero : JSON_parse (json_lit "01") = Throw SyntaxError.
Proof. vm_compute. reflexivity. Qed.

Example JSON_parse_empty : JSON_parse [] = Throw SyntaxError.
Proof. vm_compute. reflexivity. Qed.

Example JSON_parse_junk_after : JSON_parse (json_lit "nulll") = Throw SyntaxError.
Proof. vm_compute. reflexivity. Qed.

(** * Further properties *)

(** ** The reducer on a collection with distinct ids *)

Lemma ids_lookup_inj (todos : list Todo) j k tj tk :
  NoDup (id <$> todos) -> todos !! j = Some tj -> todos !! k = Some tk ->
  id tj = id tk -> j = k.
Proof.
  intros Hnd Hj Hk Heq.
  apply (NoDup_lookup (id <$> todos) j k (id tk)); [done| |];
    rewrite list_lookup_fmap; [rewrite Hj|rewrite Hk]; simpl; congruence.
Qed.

(** A map that changes only the items of one id is an update in place
    when the ids are distinct. *)
Lemma map_one_id_insert (g : Todo -> Todo) (todos : list Todo) k t :
  NoDup (id <$> todos) -> todos !! k = Some t ->
  (fun todo => if str_eq (id todo) (id t) then g todo else todo) <$> todos
  = <[k := g t]> todos.
Proof.
  intros Hnd Hk. apply list_eq. intros j. rewrite list_lookup_fmap.
  destruct (decide (j = k)) as [->|Hjk].
  - rewrite Hk. simpl. rewrite list_lookup_insert_eq by by eapply lookup_lt_Some.
    by rewrite (proj2 (str_eq_true _ _) eq_refl).
  - rewrite list_lookup_insert_ne by done.
    destruct (todos !! j) as [tj|] eqn:Hj; [|done]. simpl. f_equal.
    destruct (str_eq (id tj) (id t)) eqn:Heq; [|done].
    apply str_eq_true in Heq. by destruct Hjk; eapply ids_lookup_inj.
Qed.

(** X1. With distinct ids, [toggleTodo] of the id of the item at position
    [k] updates that one position, flipping [completed], and nothing
    else. *)
Theorem toggleTodo_updates_one_position (now : Z) (todos : list Todo) (k : nat) (t : Todo) :
  NoDup (id <$> todos) -> todos !! k = Some t ->
  toggleTodo now todos (id t) = <[k := mkTodo (id t) (text t) (negb (completed t))]> todos.
Proof.
  intros Hnd Hk. unfold toggleTodo, dispatch. simpl.
  apply (map_one_id_insert
           (fun todo => mkTodo (id todo) (text todo) (negb (completed todo))) _ _ _ Hnd Hk).
Qed.

Lemma toggleTodo_updates_one_position_witness :
  toggleTodo 0 [mkTodo (lit "1") (lit "a") true; mkTodo (lit "2") (lit "b") false]
    (id (mkTodo (lit "2") (lit "b") false))
  = <[1 := mkTodo (lit "2") (lit "b") true]>
      [mkTodo (lit "1") (lit "a") true; mkTodo (lit "2") (lit "b") false].
Proof.
  apply (toggleTodo_updates_one_position 0
    [mkTodo (lit "1") (lit "a") true; mkTodo (lit "2") (lit "b") false] 1
    (mkTodo (lit "2") (lit "b") false)).
  - apply (bool_decide_unpack _). vm_compute. exact I.
  - reflexivity.
Defined.

(** Closes a goal that is a decidable statement about closed terms. *)
Ltac by_decide := apply (bool_decide_unpack _); vm_compute; exact I.

(** X2. With distinct ids, [editTodo] with a text that is not blank
    updates the one position that holds the id, setting its text to the
    trimmed text, and nothing else. *)
Theorem editTodo_updates_one_position
  (now : Z) (todos : list Todo) (k : nat) (t : Todo) (newText : jsstring) :
  NoDup (id <$> todos) -> todos !! k = Some t -> trim newText <> [] ->
  editTodo now todos (id t) newText
  = <[k := mkTodo (id t) (trim newText) (completed t)]> todos.
Proof.
  intros Hnd Hk Hs. unfold editTodo, dispatch. apply truthy_true in Hs. rewrite Hs. simpl.
  apply (map_one_id_insert
           (fun todo => mkTodo (id todo) (trim newText) (completed todo)) _ _ _ Hnd Hk).
Qed.

Lemma editTodo_updates_one_position_witness :
  editTodo 0 [mkTodo (lit "1") (lit "a") true; mkTodo (lit "2") (lit "b") false]
    (id (mkTodo (lit "1") (lit "a") true)) (lit " c ")
  = <[0 := mkTodo (lit "1") (trim (lit " c ")) true]>
      [mkTodo (lit "1") (lit "a") true; mkTodo (lit "2") (lit "b") false].
Proof.
  apply (editTodo_updates_one_position 0
    [mkTodo (lit "1") (lit "a") true; mkTodo (lit "2") (lit "b") false] 0
    (mkTodo (lit "1") (lit "a") true) (lit " c ")).
  - by_decide.
  - reflexivity.
  - vm_compute. discriminate.
Defined.

Lemma filter_other_ids (todos : list Todo) i :
  i ∉ id <$> todos ->
  List.filter (fun todo => negb (str_eq (id todo) i)) todos = todos.
Proof.
  intros Hi. apply filter_none_fail. intros t Ht. apply negb_true_iff, str_eq_false.
  intros Heq. apply Hi. rewrite <- Heq. by apply list_elem_of_fmap_2.
Qed.

(** A filter that drops the items of one id drops one position when the
    ids are distinct. *)
Lemma filter_one_id_delete (todos : list Todo) k t :
  NoDup (id <$> todos) -> todos !! k = Some t ->
  List.filter (fun todo => negb (str_eq (id todo) (id t))) todos = delete k todos.
Proof.
  revert k. induction todos as [|x l IH]; intros k Hnd Hk; [done|].
  simpl in Hnd. apply NoDup_cons in Hnd as [Hx Hl]. destruct k as [|k]; simpl in *.
  - injection Hk as ->. rewrite (proj2 (str_eq_true _ _) eq_refl). simpl.
    by apply filter_other_ids.
  - assert (Hne : id x <> id t).
    { intros Hxt. apply Hx. rewrite Hxt.
      apply list_elem_of_fmap_2. by eapply list_elem_of_lookup_2. }
    rewrite (proj2 (str_eq_false _ _) Hne). simpl. f_equal. by apply IH.
Qed.

(** X3. With distinct ids, [deleteTodo] of the id of the item at position
    [k] removes that one position: the collection gets shorter by one. *)
Theorem deleteTodo_removes_one_position (now : Z) (todos : list Todo) (k : nat) (t : Todo) :
  NoDup (id <$> todos) -> todos !! k = Some t ->
  deleteTodo now todos (id t) = delete k todos /\
  S (length (deleteTodo now todos (id t))) = length todos.
Proof.
  intros Hnd Hk.
  assert (Heq : deleteTodo now todos (id t) = delete k todos)
    by (by apply filter_one_id_delete).
  split; [done|]. rewrite Heq, length_delete by eauto.
  apply lookup_lt_Some in Hk. lia.
Qed.

Lemma deleteTodo_removes_one_position_witness :
  deleteTodo 0 [mkTodo (lit "1") (lit "a") true; mkTodo (lit "2") (lit "b") false]
    (id (mkTodo (lit "1") (lit "a") true))
  = delete 0 [mkTodo (lit "1") (lit "a") true; mkTodo (lit "2") (lit "b") false] /\
  S (length (deleteTodo 0 [mkTodo (lit "1") (lit "a") true; mkTodo (lit "2") (lit "b") false]
               (id (mkTodo (lit "1") (lit "a") true)))) = 2.
Proof.
  apply (deleteTodo_removes_one_position 0
    [mkTodo (lit "1") (lit "a") true; mkTodo (lit "2") (lit "b") false] 0
    (mkTodo (lit "1") (lit "a") true)).
  - by_decide.
  - reflexivity.
Defined.



(** X5. Adding an item and then deleting the id it got gives back the
    collection, when no earlier item has that id. *)
Theorem addTodo_then_deleteTodo (now now' : Z) (todos : list Todo) (s : jsstring) :
  toString now ∉ id <$> todos ->
  deleteTodo now' (addTodo now todos s) (toString now) = todos.
Proof.
  intros Hfresh. unfold addTodo, deleteTodo, dispatch.
  destruct (truthy (trim s)); simpl.
  - rewrite List.filter_app. simpl. rewrite (proj2 (str_eq_true _ _) eq_refl). simpl.
    rewrite app_nil_r. by apply filter_other_ids.
  - by apply filter_other_ids.
Qed.

Lemma addTodo_then_deleteTodo_witness :
  deleteTodo 9 (addTodo 8 [mkTodo (lit "1") (lit "a") true] (lit "b")) (toString 8)
  = [mkTodo (lit "1") (lit "a") true].
Proof.
  apply (addTodo_then_deleteTodo 8 9 [mkTodo (lit "1") (lit "a") true] (lit "b")).
  by_decide.
Defined.

Lemma filter_filter_comm {A} (f g : A -> bool) (l : list A) :
  List.filter f (List.filter g l) = List.filter g (List.filter f l).
Proof.
  induction l as [|x l IH]; simpl; [done|].
  destruct (f x) eqn:Hf, (g x) eqn:Hg; simpl; rewrite ?Hf, ?Hg, ?IH; done.
Qed.

Lemma filter_filter_same {A} (f : A -> bool) (l : list A) :
  List.filter f (List.filter f l) = List.filter f l.
Proof.
  apply filter_none_fail. intros x Hx. by apply elem_of_filter in Hx as [_ Hx].
Qed.

(** X6. Deleting is idempotent, deletions of two ids can be done in
    either order, and clearing the completed items commutes with a
    deletion. *)
Theorem deleteTodo_composes (n1 n2 n3 n4 : Z) (todos : list Todo) (i j : jsstring) :
  deleteTodo n2 (deleteTodo n1 todos i) i = deleteTodo n1 todos i /\
  deleteTodo n2 (deleteTodo n1 todos i) j = deleteTodo n4 (deleteTodo n3 todos j) i /\
  clearCompleted n2 (deleteTodo n1 todos i) = deleteTodo n4 (clearCompleted n3 todos) i.
Proof.
  unfold deleteTodo, clearCompleted, dispatch. simpl.
  split; [apply filter_filter_same|]. split; apply filter_filter_comm.
Qed.

(** X7. [clearCompleted] leaves exactly what the filter ['active'] shows;
    afterwards no item counts as completed, the number of active items is
    what it was, and a second [clearCompleted] changes nothing. *)
Theorem clearCompleted_is_active_view (now now' : Z) (todos : list Todo) :
  clearCompleted now todos = filteredTodos todos FilterContext.active /\
  completedCount (clearCompleted now todos) = 0 /\
  activeCount (clearCompleted now todos) = activeCount todos /\
  filteredTodos (clearCompleted now todos) FilterContext.completed = [] /\
  clearCompleted now' (clearCompleted now todos) = clearCompleted now todos.
Proof.
  unfold clearCompleted, dispatch, completedCount, activeCount, filteredTodos. simpl.
  assert (Hnone : List.filter (fun todo => completed todo)
                    (List.filter (fun todo => negb (completed todo)) todos) = []).
  { induction todos as [|x l IH]; simpl; [done|].
    destruct (completed x) eqn:Hx; simpl; rewrite ?Hx; done. }
  rewrite Hnone, filter_filter_same. done.
Qed.

(** X8. A second edit of the same id overrides the first: only the text
    of the later call stays. *)
Theorem editTodo_later_wins (n1 n2 : Z) (todos : list Todo) (i a b : jsstring) :
  trim b <> [] ->
  editTodo n2 (editTodo n1 todos i a) i b = editTodo n2 todos i b.
Proof.
  intros Hb. apply truthy_true in Hb. unfold editTodo, dispatch. rewrite Hb.
  destruct (truthy (trim a)); [|done]. simpl.
  rewrite <- list_fmap_compose. apply list_fmap_ext. intros _ t _. simpl.
  destruct (str_eq (id t) i) eqn:Hi; simpl; rewrite Hi; done.
Qed.

Lemma editTodo_later_wins_witness :
  editTodo 2 (editTodo 1 [mkTodo (lit "1") (lit "a") true] (lit "1") (lit "b")) (lit "1") (lit "c")
  = editTodo 2 [mkTodo (lit "1") (lit "a") true] (lit "1") (lit "c").
Proof.
  apply (editTodo_later_wins 1 2 [mkTodo (lit "1") (lit "a") true] (lit "1") (lit "b") (lit "c")).
  vm_compute. discriminate.
Defined.

(** X9. Toggling and editing can be done in either order, for any two
    ids, and so can two togglings. *)
Theorem toggleTodo_commutes (n1 n2 n3 n4 : Z) (todos : list Todo) (i j s : jsstring) :
  toggleTodo n2 (editTodo n1 todos i s) j = editTodo n4 (toggleTodo n3 todos j) i s /\
  toggleTodo n2 (toggleTodo n1 todos i) j = toggleTodo n4 (toggleTodo n3 todos j) i.
Proof.
  unfold toggleTodo, editTodo, dispatch. split.
  - destruct (truthy (trim s)); [|done]. simpl.
    rewrite <- !list_fmap_compose. apply list_fmap_ext. intros _ t _. simpl.
    destruct (str_eq (id t) i) eqn:Hi, (str_eq (id t) j) eqn:Hj; simpl; rewrite ?Hi, ?Hj; done.
  - simpl. rewrite <- !list_fmap_compose. apply list_fmap_ext. intros _ t _. simpl.
    destruct (str_eq (id t) i) eqn:Hi, (str_eq (id t) j) eqn:Hj; simpl; rewrite ?Hi, ?Hj; done.
Qed.

Lemma count_after_insert (f : Todo -> bool) (l : list Todo) k t t' :
  l !! k = Some t ->
  length (List.filter f (<[k := t']> l)) + (if f t then 1 else 0)
  = length (List.filter f l) + (if f t' then 1 else 0).
Proof.
  intros Hk. rewrite insert_take_drop by by eapply lookup_lt_Some.
  rewrite <- (take_drop_middle l k t Hk) at 3.
  rewrite !List.filter_app, !length_app. simpl.
  destruct (f t), (f t'); simpl; lia.
Qed.

(** X10. With distinct ids, toggling an active item moves one item from
    the active count to the completed count, and toggling a completed
    item moves one back. *)
Theorem toggleTodo_moves_one_count (now : Z) (todos : list Todo) (k : nat) (t : Todo) :
  NoDup (id <$> todos) -> todos !! k = Some t ->
  activeCount (toggleTodo now todos (id t)) + (if completed t then 0 else 1)
    = activeCount todos + (if completed t then 1 else 0) /\
  completedCount (toggleTodo now todos (id t)) + (if completed t then 1 else 0)
    = completedCount todos + (if completed t then 0 else 1).
Proof.
  intros Hnd Hk. unfold toggleTodo, dispatch. simpl.
  rewrite (map_one_id_insert
             (fun todo => mkTodo (id todo) (text todo) (negb (completed todo))) _ _ _ Hnd Hk).
  unfold activeCount, completedCount.
  pose proof (count_after_insert (fun todo => negb (completed todo)) todos k t
                (mkTodo (id t) (text t) (negb (completed t))) Hk) as Ha.
  pose proof (count_after_insert (fun todo => completed todo) todos k t
                (mkTodo (id t) (text t) (negb (completed t))) Hk) as Hc.
  simpl in Ha, Hc. destruct (completed t); simpl in *; lia.
Qed.

Lemma toggleTodo_moves_one_count_witness :
  activeCount (toggleTodo 0 [mkTodo (lit "1") (lit "a") false; mkTodo (lit "2") (lit "b") false]
                 (id (mkTodo (lit "1") (lit "a") false))) + 1
    = activeCount [mkTodo (lit "1") (lit "a") false; mkTodo (lit "2") (lit "b") false] + 0 /\
  completedCount (toggleTodo 0 [mkTodo (lit "1") (lit "a") false; mkTodo (lit "2") (lit "b") false]
                    (id (mkTodo (lit "1") (lit "a") false))) + 0
    = completedCount [mkTodo (lit "1") (lit "a") false; mkTodo (lit "2") (lit "b") false] + 1.
Proof.
  apply (toggleTodo_moves_one_count 0
    [mkTodo (lit "1") (lit "a") false; mkTodo (lit "2") (lit "b") false] 0
    (mkTodo (lit "1") (lit "a") false)).
  - by_decide.
  - reflexivity.
Defined.

(** ** What [trim] returns *)

Lemma trimStart_head s :
  match trimStart s with [] => True | c :: _ => is_white_space c = false end.
Proof.
  induction s as [|c r IH]; simpl; [done|].
  destruct (is_white_space c) eqn:Hc; [done|]. simpl. done.
Qed.

Lemma trimStart_fixed c r : is_white_space c = false -> trimStart (c :: r) = c :: r.
Proof. intros Hc. simpl. by rewrite Hc. Qed.

Lemma trimStart_idem s : trimStart (trimStart s) = trimStart s.
Proof.
  pose proof (trimStart_head s) as H. destruct (trimStart s) as [|c r]; [done|].
  by apply trimStart_fixed.
Qed.

Lemma trimStart_suffix s : exists p, s = p ++ trimStart s.
Proof.
  induction s as [|c r [p Hp]]; simpl; [by exists []|].
  destruct (is_white_space c); [|by exists []].
  exists (c :: p). simpl. by f_equal.
Qed.

(** A trimmed string has no white space left at either end: trimming it
    again gives it back. *)
Lemma trim_idem s : trim (trim s) = trim s.
Proof.
  unfold trim, trimEnd.
  set (u := trimStart s). set (w := trimStart (reverse u)).
  assert (Hw : trimStart w = w) by apply trimStart_idem.
  assert (HA : trimStart (reverse w) = reverse w).
  { destruct (trimStart_suffix (reverse u)) as [p Hp]. fold w in Hp.
    assert (Hu : u = reverse w ++ reverse p).
    { rewrite <- (reverse_involutive u), Hp, reverse_app. done. }
    destruct (reverse w) as [|c r'] eqn:Hr; [done|].
    pose proof (trimStart_head s) as Hh. fold u in Hh. rewrite Hu in Hh. simpl in Hh.
    by apply trimStart_fixed. }
  rewrite HA, reverse_involutive, Hw. done.
Qed.

(** ** Sessions *)

Lemma step_texts_trimmed (todos : list Todo) (c : Z * Session.Call) :
  Forall (fun t => text t <> [] /\ trim (text t) = text t) todos ->
  Forall (fun t => text t <> [] /\ trim (text t) = text t) (Session.step todos c).
Proof.
  intros Hall. destruct c as [now [s|i|i|i s|]]; simpl.
  - unfold addTodo, dispatch. destruct (truthy (trim s)) eqn:Hs; [|done]. simpl.
    apply Forall_app. split; [done|]. constructor; [|constructor]. simpl.
    split; [by apply truthy_true|apply trim_idem].
  - unfold toggleTodo, dispatch. simpl. apply Forall_fmap.
    apply (Forall_impl _ _ _ Hall). intros t Ht. simpl. by destruct (str_eq (id t) i).
  - unfold deleteTodo, dispatch. simpl.
    apply Forall_forall. intros t Ht. apply elem_of_filter in Ht as [Ht _].
    by apply (proj1 (Forall_forall _ _) Hall).
  - unfold editTodo, dispatch. destruct (truthy (trim s)) eqn:Hs; [|done]. simpl.
    apply Forall_fmap. apply (Forall_impl _ _ _ Hall). intros t Ht. simpl.
    destruct (str_eq (id t) i); [|done]. simpl.
    split; [by apply truthy_true|apply trim_idem].
  - unfold clearCompleted, dispatch. simpl.
    apply Forall_forall. intros t Ht. apply elem_of_filter in Ht as [Ht _].
    by apply (proj1 (Forall_forall _ _) Hall).
Qed.

(** X11. Whatever the calls of a session, every item of the collection
    has a text that is not empty and has no white space at either end. *)
Theorem session_texts_trimmed (calls : list (Z * Session.Call)) :
  Forall (fun t => text t <> [] /\ trim (text t) = text t) (Session.run calls).
Proof.
  unfold Session.run. induction calls as [|c calls IH] using rev_ind; [constructor|].
  rewrite foldl_snoc. by apply step_texts_trimmed.
Qed.

(** X12. Every id in the collection of a session is the decimal rendering
    of the clock reading of one of its [Add] calls, and the collection
    never holds more items than there were [Add] calls. *)
Theorem session_ids_are_readings (calls : list (Z * Session.Call)) :
  (forall t, t ∈ Session.run calls ->
     exists now, now ∈ Session.add_readings calls /\ id t = toString now) /\
  length (Session.run calls) <= length (Session.add_readings calls) /\
  length (Session.add_readings calls) <= length calls.
Proof.
  pose proof (run_ids_from_readings calls) as Hsub. repeat split.
  - intros t Ht. apply (list_elem_of_fmap_2 id) in Ht.
    apply (elem_of_sublist _ _ _ Ht) in Hsub.
    apply list_elem_of_fmap in Hsub as (now & Hid & Hnow). eauto.
  - apply sublist_length in Hsub. by rewrite !length_fmap in Hsub.
  - unfold Session.add_readings. clear Hsub.
    induction calls as [|c calls IH]; csimpl; [lia|].
    destruct c as [now []]; simpl; lia.
Qed.

Lemma run_ids_distinct_witness :
  NoDup (id <$> Session.run [(1%Z, Session.Add (lit "a")); (2%Z, Session.Toggle (lit "1"));
                             (2%Z, Session.Add (lit "b")); (2%Z, Session.ClearCompleted)]).
Proof.
  apply (run_ids_distinct [(1%Z, Session.Add (lit "a")); (2%Z, Session.Toggle (lit "1"));
                           (2%Z, Session.Add (lit "b")); (2%Z, Session.ClearCompleted)]).
  by_decide.
Defined.

(** ** JSON.stringify and JSON.parse *)

Section Quoting.

Local Arguments N.div : simpl never.
Local Arguments N.modulo : simpl never.

Lemma hex_val_hex_digit (n : N) : (n < 16)%N -> hex_val (hex_digit n) = Some n.
Proof.
  intros Hn. unfold hex_val, hex_digit, is_digit.
  destruct (N.ltb_spec n 10).
  - rewrite (proj2 (N.leb_le _ _)), (proj2 (N.leb_le _ _)) by lia. simpl. f_equal. lia.
  - replace (48 <=? 97 + (n - 10))%N with true by (symmetry; apply N.leb_le; lia).
    replace (97 + (n - 10) <=? 57)%N with false by (symmetry; apply N.leb_gt; lia).
    replace (65 <=? 97 + (n - 10))%N with true by (symmetry; apply N.leb_le; lia).
    replace (97 + (n - 10) <=? 70)%N with false by (symmetry; apply N.leb_gt; lia).
    replace (97 <=? 97 + (n - 10))%N with true by (symmetry; apply N.leb_le; lia).
    replace (97 + (n - 10) <=? 102)%N with true by (symmetry; apply N.leb_le; lia).
    simpl. f_equal. lia.
Qed.

Lemma hex_recompose (c : N) :
  (c < 65536)%N ->
  (((c / 4096 mod 16 * 16 + c / 256 mod 16) * 16 + c / 16 mod 16) * 16 + c mod 16 = c)%N.
Proof.
  intros Hc.
  pose proof (N.div_mod c 16 ltac:(lia)) as H0.
  pose proof (N.div_mod (c / 16) 16 ltac:(lia)) as H1.
  pose proof (N.div_mod (c / 16 / 16) 16 ltac:(lia)) as H2.
  pose proof (N.mod_lt c 16 ltac:(lia)).
  pose proof (N.mod_lt (c / 16) 16 ltac:(lia)).
  pose proof (N.mod_lt (c / 16 / 16) 16 ltac:(lia)).
  assert (H5 : (c / 256 = c / 16 / 16)%N) by (rewrite N.Div0.div_div; reflexivity).
  assert (H6 : (c / 4096 = c / 16 / 16 / 16)%N) by (rewrite !N.Div0.div_div; reflexivity).
  assert (c / 16 / 16 / 16 < 16)%N.
  { rewrite !N.Div0.div_div. apply N.Div0.div_lt_upper_bound. simpl. lia. }
  rewrite H5, H6. rewrite (N.mod_small (c / 16 / 16 / 16)) by assumption.
  lia.
Qed.

(** The four digits of an escape denote the code unit they were made
    from. *)
Lemma unicode_escape_digits (c : N) :
  (c < 65536)%N ->
  hex4 (hex_digit (c / 4096 mod 16)) (hex_digit (c / 256 mod 16))
       (hex_digit (c / 16 mod 16)) (hex_digit (c mod 16)) = Some c.
Proof.
  intros Hc. unfold hex4.
  rewrite !hex_val_hex_digit by (apply N.mod_lt; lia).
  f_equal. by apply hex_recompose.
Qed.

Lemma parse_string_body_raw c r acc :
  (c =? quote)%N = false -> (c =? backslash)%N = false -> (c <? 0x20)%N = false ->
  parse_string_body (c :: r) acc = parse_string_body r (c :: acc).
Proof. intros Hq Hb Hl. cbn [parse_string_body]. by rewrite Hq, Hb, Hl. Qed.

Lemma parse_string_body_escape c r acc :
  (c < 65536)%N ->
  parse_string_body (unicode_escape c ++ r) acc = parse_string_body r (c :: acc).
Proof.
  intros Hc. unfold unicode_escape. cbn [parse_string_body app].
  change (backslash =? quote)%N with false. change (backslash =? backslash)%N with true.
  change (ch "u" =? ch "u")%N with true. cbv iota.
  by rewrite unicode_escape_digits.
Qed.

(** Reading back what [quote_unit] wrote gives the code unit. *)
Lemma parse_quote_unit c r acc :
  parse_string_body (quote_unit c ++ r) acc = parse_string_body r (c :: acc).
Proof.
  unfold quote_unit.
  repeat match goal with
         | |- context [if (c =? ?k)%N then _ else _] =>
             destruct (N.eqb_spec c k) as [->|?]; [reflexivity|]
         end.
  destruct ((c <? 32)%N || is_leading_surrogate c || is_trailing_surrogate c) eqn:Hesc.
  - apply parse_string_body_escape.
    unfold is_leading_surrogate, is_trailing_surrogate in Hesc.
    repeat (apply orb_true_iff in Hesc as [Hesc|Hesc]).
    + apply N.ltb_lt in Hesc. lia.
    + apply andb_true_iff in Hesc as [_ Hesc]. apply N.leb_le in Hesc. lia.
    + apply andb_true_iff in Hesc as [_ Hesc]. apply N.leb_le in Hesc. lia.
  - apply orb_false_iff in Hesc as [Hesc _]. apply orb_false_iff in Hesc as [Hesc _].
    apply parse_string_body_raw; [by apply N.eqb_neq..|done].
Qed.

(** Reading back what [quote_body] wrote, up to the closing quote, gives
    the string. *)
Lemma parse_quote_body s : forall r acc,
  parse_string_body (quote_body s ++ quote :: r) acc = Some (reverse acc ++ s, r).
Proof.
  induction s as [s IH] using (induction_ltof1 _ (@length N)). unfold ltof in IH.
  intros r acc. destruct s as [|c [|d s']].
  - cbn [quote_body app parse_string_body]. change (quote =? quote)%N with true.
    cbv iota. by rewrite app_nil_r.
  - cbn [quote_body]. rewrite parse_quote_unit.
    cbn [parse_string_body]. change (quote =? quote)%N with true. cbv iota.
    by rewrite reverse_cons.
  - change (quote_body (c :: d :: s'))
      with (if is_leading_surrogate c && is_trailing_surrogate d
            then c :: d :: quote_body s'
            else quote_unit c ++ quote_body (d :: s')).
    destruct (is_leading_surrogate c && is_trailing_surrogate d) eqn:Hpair.
    + apply andb_true_iff in Hpair as [Hc Hd].
      unfold is_leading_surrogate, is_trailing_surrogate in Hc, Hd.
      apply andb_true_iff in Hc as [Hc _]. apply andb_true_iff in Hd as [Hd _].
      apply N.leb_le in Hc, Hd. cbn [app].
      rewrite !parse_string_body_raw;
        [|try apply N.eqb_neq; try apply N.ltb_ge; unfold quote, backslash; lia..].
      rewrite IH by (simpl; lia). rewrite !reverse_cons, <- !app_assoc. done.
    + rewrite <- app_assoc, parse_quote_unit.
      rewrite IH by (simpl; lia). rewrite reverse_cons, <- app_assoc. done.
Qed.

End Quoting.

Section ParsingBack.

Local Arguments parse_string_body : simpl never.
Local Arguments parse_atom : simpl never.
Local Arguments quote_body : simpl never.

Lemma QuoteJSONString_app s r : QuoteJSONString s ++ r = quote :: quote_body s ++ quote :: r.
Proof. unfold QuoteJSONString. simpl. by rewrite <- app_assoc. Qed.

Lemma parse_value_string n s r :
  parse_value (S n) (QuoteJSONString s ++ r) = POk (JString s) r.
Proof. rewrite QuoteJSONString_app. simpl. by rewrite parse_quote_body. Qed.

Lemma parse_value_bool n (b : bool) r :
  parse_value (S n) ((if b then lit "true" else lit "false") ++ r) = POk (JBool b) r.
Proof. by destruct b. Qed.

(** One member of an object that is followed by another one. *)
Lemma parse_member n key V v more acc :
  (forall X, parse_value (S n) (V ++ X) = POk v X) ->
  parse_members (S (S n)) (QuoteJSONString key ++ lit ":" ++ V ++ lit "," ++ more) acc
  = parse_members (S n) more ((key, v) :: acc).
Proof.
  intros HV. rewrite QuoteJSONString_app.
  change (parse_members (S (S n)) (quote :: ?s) acc)
    with (match parse_string_body s [] with
          | Some (k, rest) =>
              match skip_ws rest with
              | c' :: r' =>
                  if (c' =? ch ":")%N then
                    match parse_value (S n) r' with
                    | POk v rest' =>
                        match skip_ws rest' with
                        | c'' :: r'' =>
                            if (c'' =? ch ",")%N then parse_members (S n) r'' ((k, v) :: acc)
                            else if (c'' =? ch "}")%N
                                 then POk (JObject (reverse ((k, v) :: acc))) r''
                                 else PSyntaxError
                        | [] => PSyntaxError
                        end
                    | PSyntaxError => PSyntaxError
                    | POutOfFuel => POutOfFuel
                    end
                  else PSyntaxError
              | [] => PSyntaxError
              end
          | None => PSyntaxError
          end).
  rewrite parse_quote_body. cbn [lit list_ascii_of_string fmap list_fmap app].
  change (skip_ws (N_of_ascii ":" :: ?x)) with (N_of_ascii ":" :: x).
  change (N_of_ascii ":" =? ch ":")%N with true. cbv iota.
  rewrite (HV (N_of_ascii "," :: more)). reflexivity.
Qed.

(** The last member of an object. *)
Lemma parse_member_last n key V v r acc :
  (forall X, parse_value (S n) (V ++ X) = POk v X) ->
  parse_members (S (S n)) (QuoteJSONString key ++ lit ":" ++ V ++ lit "}" ++ r) acc
  = POk (JObject (reverse ((key, v) :: acc))) r.
Proof.
  intros HV. rewrite QuoteJSONString_app.
  change (parse_members (S (S n)) (quote :: ?s) acc)
    with (match parse_string_body s [] with
          | Some (k, rest) =>
              match skip_ws rest with
              | c' :: r' =>
                  if (c' =? ch ":")%N then
                    match parse_value (S n) r' with
                    | POk v rest' =>
                        match skip_ws rest' with
                        | c'' :: r'' =>
                            if (c'' =? ch ",")%N then parse_members (S n) r'' ((k, v) :: acc)
                            else if (c'' =? ch "}")%N
                                 then POk (JObject (reverse ((k, v) :: acc))) r''
                                 else PSyntaxError
                        | [] => PSyntaxError
                        end
                    | PSyntaxError => PSyntaxError
                    | POutOfFuel => POutOfFuel
                    end
                  else PSyntaxError
              | [] => PSyntaxError
              end
          | None => PSyntaxError
          end).
  rewrite parse_quote_body. cbn [lit list_ascii_of_string fmap list_fmap app].
  change (skip_ws (N_of_ascii ":" :: ?x)) with (N_of_ascii ":" :: x).
  change (N_of_ascii ":" =? ch ":")%N with true. cbv iota.
  rewrite (HV (N_of_ascii "}" :: r)). reflexivity.
Qed.

(** Reading back one stringified item. *)
Lemma parse_value_Todo n t r :
  parse_value (S (S (S (S (S n))))) (stringify_Todo t ++ r) = POk (Todo_to_js t) r.
Proof.
  unfold stringify_Todo. rewrite <- !app_assoc.
  rewrite (QuoteJSONString_app (lit "id")).
  change (parse_value (S ?f) (lit "{" ++ quote :: ?x)) with (parse_members f (quote :: x) []).
  rewrite <- (QuoteJSONString_app (lit "id")).
  rewrite (parse_member _ _ _ (JString (id t))) by (intros X; apply parse_value_string).
  rewrite (parse_member _ _ _ (JString (text t))) by (intros X; apply parse_value_string).
  rewrite (parse_member_last _ _ _ (JBool (completed t))) by (intros X; apply parse_value_bool).
  reflexivity.
Qed.

Lemma stringify_Todo_head t : exists x, stringify_Todo t = ch "{" :: quote :: x.
Proof. unfold stringify_Todo. rewrite QuoteJSONString_app. simpl. eauto. Qed.

(** Reading back the stringified items of a non-empty array. *)
Lemma parse_elements_Todos todos : forall t n r acc,
  parse_elements (S (S (S (S (S (S (length todos + n)))))))
    (join_comma (stringify_Todo <$> (t :: todos)) ++ lit "]" ++ r) acc
  = POk (JArray (reverse acc ++ (Todo_to_js <$> (t :: todos)))) r.
Proof.
  induction todos as [|t' todos IH]; intros t n r acc.
  - change (join_comma (stringify_Todo <$> [t])) with (stringify_Todo t).
    change (parse_elements (S ?f) ?s acc)
      with (match parse_value f s with
            | POk v rest =>
                match skip_ws rest with
                | c :: r0 =>
                    if (c =? ch ",")%N then parse_elements f r0 (v :: acc)
                    else if (c =? ch "]")%N then POk (JArray (reverse (v :: acc))) r0
                    else PSyntaxError
                | [] => PSyntaxError
                end
            | PSyntaxError => PSyntaxError
            | POutOfFuel => POutOfFuel
            end).
    cbn [length Nat.add]. rewrite parse_value_Todo. by rewrite reverse_cons.
  - change (join_comma (stringify_Todo <$> (t :: t' :: todos)))
      with (stringify_Todo t ++ lit "," ++ join_comma (stringify_Todo <$> (t' :: todos))).
    rewrite <- !app_assoc.
    change (parse_elements (S ?f) ?s acc)
      with (match parse_value f s with
            | POk v rest =>
                match skip_ws rest with
                | c :: r0 =>
                    if (c =? ch ",")%N then parse_elements f r0 (v :: acc)
                    else if (c =? ch "]")%N then POk (JArray (reverse (v :: acc))) r0
                    else PSyntaxError
                | [] => PSyntaxError
                end
            | PSyntaxError => PSyntaxError
            | POutOfFuel => POutOfFuel
            end).
    cbn [length Nat.add]. rewrite parse_value_Todo.
    change (skip_ws (lit "," ++ ?x)) with (N_of_ascii "," :: x). cbv beta iota.
    replace (N_of_ascii "," =? ch ",")%N with true by reflexivity.
    rewrite IH. rewrite reverse_cons, <- app_assoc. done.
Qed.

(** Some fuel reads back the stringified collection. *)
Lemma parse_value_stringify todos :
  parse_value (S (S (S (S (S (S (S (length todos)))))))) (JSON_stringify todos)
  = POk (JArray (Todo_to_js <$> todos)) [].
Proof.
  unfold JSON_stringify. destruct todos as [|t todos]; [reflexivity|].
  destruct (stringify_Todo_head t) as [x Hx].
  assert (Hj : exists y, join_comma (stringify_Todo <$> (t :: todos)) ++ lit "]"
                         = ch "{" :: y).
  { destruct todos as [|t' l].
    - change (join_comma (stringify_Todo <$> [t])) with (stringify_Todo t).
      rewrite Hx. simpl. eauto.
    - change (join_comma (stringify_Todo <$> (t :: t' :: l)))
        with (stringify_Todo t ++ lit "," ++ join_comma (stringify_Todo <$> (t' :: l))).
      rewrite Hx. simpl. eauto. }
  destruct Hj as [y Hy].
  change (parse_value (S ?f) (lit "[" ++ ?s))
    with (match skip_ws s with
          | c' :: r' =>
              if (c' =? ch "]")%N then POk (JArray []) r' else parse_elements f (c' :: r') []
          | [] => PSyntaxError
          end).
  rewrite Hy. change (skip_ws (ch "{" :: y)) with (ch "{" :: y).
  cbv beta iota. replace (ch "{" =? ch "]")%N with false by reflexivity. rewrite <- Hy.
  pose proof (parse_elements_Todos todos t 1 [] []) as H.
  rewrite Nat.add_1_r, app_nil_r in H. simpl length. exact H.
Qed.

End ParsingBack.

(** ** More fuel changes nothing *)

Lemma parse_fuel_step fuel :
  (forall s, parse_value fuel s <> POutOfFuel -> parse_value (S fuel) s = parse_value fuel s) /\
  (forall s acc, parse_elements fuel s acc <> POutOfFuel ->
                 parse_elements (S fuel) s acc = parse_elements fuel s acc) /\
  (forall s acc, parse_members fuel s acc <> POutOfFuel ->
                 parse_members (S fuel) s acc = parse_members fuel s acc).
Proof.
  induction fuel as [|n (IHv & IHe & IHm)]; [by repeat split|].
  split; [|split].
  - intros s H.
    change (parse_value (S (S n)) s) with
      (match skip_ws s with
       | [] => PSyntaxError
       | c :: r =>
           if (c =? ch "[")%N then
             match skip_ws r with
             | c' :: r' =>
                 if (c' =? ch "]")%N then POk (JArray []) r'
                 else parse_elements (S n) (c' :: r') []
             | [] => PSyntaxError
             end
           else if (c =? ch "{")%N then
             match skip_ws r with
             | c' :: r' =>
                 if (c' =? ch "}")%N then POk (JObject []) r'
                 else parse_members (S n) (c' :: r') []
             | [] => PSyntaxError
             end
           else if (c =? quote)%N then
             match parse_string_body r [] with
             | Some (str, rest) => POk (JString str) rest
             | None => PSyntaxError
             end
           else parse_atom (c :: r)
       end).
    change (parse_value (S n) s) with
      (match skip_ws s with
       | [] => PSyntaxError
       | c :: r =>
           if (c =? ch "[")%N then
             match skip_ws r with
             | c' :: r' =>
                 if (c' =? ch "]")%N then POk (JArray []) r'
                 else parse_elements n (c' :: r') []
             | [] => PSyntaxError
             end
           else if (c =? ch "{")%N then
             match skip_ws r with
             | c' :: r' =>
                 if (c' =? ch "}")%N then POk (JObject []) r'
                 else parse_members n (c' :: r') []
             | [] => PSyntaxError
             end
           else if (c =? quote)%N then
             match parse_string_body r [] with
             | Some (str, rest) => POk (JString str) rest
             | None => PSyntaxError
             end
           else parse_atom (c :: r)
       end) in *.
    repeat case_match; try done; auto.
  - intros s acc H.
    change (parse_elements (S (S n)) s acc) with
      (match parse_value (S n) s with
       | POk v rest =>
           match skip_ws rest with
           | c :: r =>
               if (c =? ch ",")%N then parse_elements (S n) r (v :: acc)
               else if (c =? ch "]")%N then POk (JArray (reverse (v :: acc))) r
               else PSyntaxError
           | [] => PSyntaxError
           end
       | PSyntaxError => PSyntaxError
       | POutOfFuel => POutOfFuel
       end).
    change (parse_elements (S n) s acc) with
      (match parse_value n s with
       | POk v rest =>
           match skip_ws rest with
           | c :: r =>
               if (c =? ch ",")%N then parse_elements n r (v :: acc)
               else if (c =? ch "]")%N then POk (JArray (reverse (v :: acc))) r
               else PSyntaxError
           | [] => PSyntaxError
           end
       | PSyntaxError => PSyntaxError
       | POutOfFuel => POutOfFuel
       end) in *.
    destruct (parse_value n s) as [v rest| |] eqn:Hv; [|by rewrite IHv, Hv by congruence|done].
    rewrite IHv, Hv by congruence.
    repeat case_match; try done; auto.
  - intros s acc H.
    change (parse_members (S (S n)) s acc) with
      (match skip_ws s with
       | c :: r =>
           if (c =? quote)%N then
             match parse_string_body r [] with
             | Some (key, rest) =>
                 match skip_ws rest with
                 | c' :: r' =>
                     if (c' =? ch ":")%N then
                       match parse_value (S n) r' with
                       | POk v rest' =>
                           match skip_ws rest' with
                           | c'' :: r'' =>
                               if (c'' =? ch ",")%N
                               then parse_members (S n) r'' ((key, v) :: acc)
                               else if (c'' =? ch "}")%N
                                    then POk (JObject (reverse ((key, v) :: acc))) r''
                                    else PSyntaxError
                           | [] => PSyntaxError
                           end
                       | PSyntaxError => PSyntaxError
                       | POutOfFuel => POutOfFuel
                       end
                     else PSyntaxError
                 | [] => PSyntaxError
                 end
             | None => PSyntaxError
             end
           else PSyntaxError
       | [] => PSyntaxError
       end).
    change (parse_members (S n) s acc) with
      (match skip_ws s with
       | c :: r =>
           if (c =? quote)%N then
             match parse_string_body r [] with
             | Some (key, rest) =>
                 match skip_ws rest with
                 | c' :: r' =>
                     if (c' =? ch ":")%N then
                       match parse_value n r' with
                       | POk v rest' =>
                           match skip_ws rest' with
                           | c'' :: r'' =>
                               if (c'' =? ch ",")%N
                               then parse_members n r'' ((key, v) :: acc)
                               else if (c'' =? ch "}")%N
                                    then POk (JObject (reverse ((key, v) :: acc))) r''
                                    else PSyntaxError
                           | [] => PSyntaxError
                           end
                       | PSyntaxError => PSyntaxError
                       | POutOfFuel => POutOfFuel
                       end
                     else PSyntaxError
                 | [] => PSyntaxError
                 end
             | None => PSyntaxError
             end
           else PSyntaxError
       | [] => PSyntaxError
       end) in *.
    destruct (skip_ws s) as [|c r]; [done|].
    destruct (c =? quote)%N; [|done].
    destruct (parse_string_body r []) as [[key rest]|]; [|done].
    destruct (skip_ws rest) as [|c' r']; [done|].
    destruct (c' =? ch ":")%N; [|done].
    destruct (parse_value n r') as [v rest'| |] eqn:Hv; [|by rewrite IHv, Hv by congruence|done].
    rewrite IHv, Hv by congruence.
    repeat case_match; try done; auto.
Qed.

(** A parse that did not run out of fuel gives the same result with any
    larger fuel. *)
Lemma parse_value_fuel_mono n m s :
  n <= m -> parse_value n s <> POutOfFuel -> parse_value m s = parse_value n s.
Proof.
  intros Hnm Hn. induction Hnm as [|m Hnm IH]; [done|].
  rewrite <- IH. apply parse_fuel_step. by rewrite IH.
Qed.

(** [JSON.parse] reads back what [JSON.stringify] wrote for a collection,
    whatever code units the strings of its items hold. *)
Lemma JSON_parse_stringify todos :
  JSON_parse (JSON_stringify todos) = Normal (JArray (Todo_to_js <$> todos)).
Proof.
  unfold JSON_parse.
  set (s := JSON_stringify todos). set (F := 2 * length s + 2).
  set (n0 := S (S (S (S (S (S (S (length todos)))))))).
  assert (H0 : parse_value n0 s = POk (JArray (Todo_to_js <$> todos)) [])
    by apply parse_value_stringify.
  assert (HF : parse_value F s = parse_value n0 s).
  { rewrite <- (parse_value_fuel_mono F (F `max` n0) s); [|lia|apply JSON_parse_fuel].
    apply parse_value_fuel_mono; [lia|]. by rewrite H0. }
  rewrite HF, H0. reflexivity.
Qed.

Lemma as_Todo_to_js t : as_Todo (Todo_to_js t) = Some t.
Proof. by destruct t. Qed.

Lemma as_Todos_to_js todos : as_Todos (JArray (Todo_to_js <$> todos)) = Some todos.
Proof.
  unfold as_Todos. apply mapM_Some_2. induction todos as [|t todos IH]; simpl.
  - constructor.
  - constructor; [apply as_Todo_to_js|done].
Qed.

(** ** Saving and restoring *)

Lemma saveTodosEffect_accepted todos h :
  Host.accessible h = true ->
  Host.accepts h (lit "todos") (JSON_stringify todos) = true ->
  Host.saveTodosEffect todos h
  = (Host.mkHost (<[lit "todos" := JSON_stringify todos]> (Host.items h)) (Host.accessible h)
       (Host.accepts h) (Host.data_theme h) (Host.console h), Normal tt).
Proof.
  intros Ha Hw. unfold Host.saveTodosEffect, Host.htry_catch, Host.setItem.
  by rewrite Ha, Hw.
Qed.

Lemma JSON_stringify_truthy todos : truthy (JSON_stringify todos) = true.
Proof. reflexivity. Qed.

(** X13. What the save effect writes, the load effect of the next
    session reads back: when storage takes the write, restoring yields the
    saved collection, item by item, whatever code units the ids and texts
    hold. *)
Theorem saved_todos_are_restored (todos : list Todo) (h : Host.host) :
  Host.accessible h = true ->
  Host.accepts h (lit "todos") (JSON_stringify todos) = true ->
  TodoProvider_init (Host.storage_of (Host.saveTodosEffect todos h).1)
  = ([GetItem (lit "todos")], Normal (JArray (Todo_to_js <$> todos))) /\
  as_Todos (JArray (Todo_to_js <$> todos)) = Some todos.
Proof.
  intros Ha Hw. split; [|apply as_Todos_to_js].
  rewrite saveTodosEffect_accepted by done. rewrite TodoProvider_init_cases.
  unfold Host.storage_of. simpl. rewrite Ha, lookup_insert_eq.
  by rewrite JSON_stringify_truthy, JSON_parse_stringify.
Qed.

Lemma saved_todos_are_restored_witness :
  TodoProvider_init
    (Host.storage_of
       (Host.saveTodosEffect [mkTodo (lit "1") [0x22; 0x5C; 0x0A; 0xD800; 0x61]%N true]
          (Host.mkHost ∅ true (fun _ _ => true) None [])).1)
  = ([GetItem (lit "todos")],
     Normal (JArray (Todo_to_js <$> [mkTodo (lit "1") [0x22; 0x5C; 0x0A; 0xD800; 0x61]%N true]))) /\
  as_Todos (JArray (Todo_to_js <$> [mkTodo (lit "1") [0x22; 0x5C; 0x0A; 0xD800; 0x61]%N true]))
  = Some [mkTodo (lit "1") [0x22; 0x5C; 0x0A; 0xD800; 0x61]%N true].
Proof.
  apply (saved_todos_are_restored
           [mkTodo (lit "1") [0x22; 0x5C; 0x0A; 0xD800; 0x61]%N true]
           (Host.mkHost ∅ true (fun _ _ => true) None [])); reflexivity.
Defined.

(** X14. A save that storage refuses is not an error for the caller: the
    effect completes normally, logs one message and leaves storage as it
    was, so the next session restores what was stored before. *)
Theorem refused_save_keeps_storage (todos : list Todo) (h : Host.host) :
  Host.accessible h && Host.accepts h (lit "todos") (JSON_stringify todos) = false ->
  (Host.saveTodosEffect todos h).2 = Normal tt /\
  Host.items (Host.saveTodosEffect todos h).1 = Host.items h /\
  Host.console (Host.saveTodosEffect todos h).1
    = Host.console h ++ [lit "Failed to save todos to localStorage:"] /\
  TodoProvider_init (Host.storage_of (Host.saveTodosEffect todos h).1)
    = TodoProvider_init (Host.storage_of h).
Proof.
  intros Hr. unfold Host.saveTodosEffect, Host.htry_catch, Host.setItem. rewrite Hr.
  simpl. repeat split.
Qed.

Lemma refused_save_keeps_storage_witness :
  (Host.saveTodosEffect [mkTodo (lit "1") (lit "a") true]
     (Host.mkHost ∅ true (fun _ _ => false) None [])).2 = Normal tt /\
  Host.items (Host.saveTodosEffect [mkTodo (lit "1") (lit "a") true]
                (Host.mkHost ∅ true (fun _ _ => false) None [])).1
    = Host.items (Host.mkHost ∅ true (fun _ _ => false) None []) /\
  Host.console (Host.saveTodosEffect [mkTodo (lit "1") (lit "a") true]
                  (Host.mkHost ∅ true (fun _ _ => false) None [])).1
    = Host.console (Host.mkHost ∅ true (fun _ _ => false) None [])
      ++ [lit "Failed to save todos to localStorage:"] /\
  TodoProvider_init
    (Host.storage_of (Host.saveTodosEffect [mkTodo (lit "1") (lit "a") true]
                        (Host.mkHost ∅ true (fun _ _ => false) None [])).1)
    = TodoProvider_init (Host.storage_of (Host.mkHost ∅ true (fun _ _ => false) None [])).
Proof.
  apply (refused_save_keeps_storage [mkTodo (lit "1") (lit "a") true]
           (Host.mkHost ∅ true (fun _ _ => false) None [])).
  reflexivity.
Defined.

(** X15. The theme the save effect writes is the theme the initializer
    of the next session returns, and the [data-theme] attribute of the
    document holds it too. *)
Theorem saved_theme_is_restored (theme : ThemeType) (h : Host.host) :
  Host.accessible h = true ->
  Host.accepts h (lit "theme") (ThemeType_to_string theme) = true ->
  initialTheme (Host.storage_of (Host.saveThemeEffect theme h).1)
    = ([GetItem (lit "theme")], Normal theme) /\
  Host.data_theme (Host.saveThemeEffect theme h).1 = Some (ThemeType_to_string theme) /\
  (Host.saveThemeEffect theme h).2 = Normal tt.
Proof.
  intros Ha Hw.
  unfold Host.saveThemeEffect, Host.htry_catch, Host.hbind, Host.setItem,
    Host.setAttribute_data_theme.
  rewrite Ha, Hw. simpl. repeat split.
  unfold initialTheme, getItem, Host.storage_of. simpl. rewrite ?Ha, lookup_insert_eq.
  by destruct theme.
Qed.

Lemma saved_theme_is_restored_witness :
  initialTheme (Host.storage_of
                  (Host.saveThemeEffect dark (Host.mkHost ∅ true (fun _ _ => true) None [])).1)
    = ([GetItem (lit "theme")], Normal dark) /\
  Host.data_theme (Host.saveThemeEffect dark (Host.mkHost ∅ true (fun _ _ => true) None [])).1
    = Some (ThemeType_to_string dark) /\
  (Host.saveThemeEffect dark (Host.mkHost ∅ true (fun _ _ => true) None [])).2 = Normal tt.
Proof.
  apply (saved_theme_is_restored dark (Host.mkHost ∅ true (fun _ _ => true) None []));
    reflexivity.
Defined.

(** X16. When storage refuses the theme, the effect does not reach the
    update of the document either: the [data-theme] attribute and the
    stored items stay as they were, one message is logged, and nothing is
    thrown. *)
Theorem refused_theme_save_skips_attribute (theme : ThemeType) (h : Host.host) :
  Host.accessible h && Host.accepts h (lit "theme") (ThemeType_to_string theme) = false ->
  (Host.saveThemeEffect theme h).2 = Normal tt /\
  Host.data_theme (Host.saveThemeEffect theme h).1 = Host.data_theme h /\
  Host.items (Host.saveThemeEffect theme h).1 = Host.items h /\
  Host.console (Host.saveThemeEffect theme h).1
    = Host.console h ++ [lit "Failed to save theme to localStorage:"].
Proof.
  intros Hr.
  unfold Host.saveThemeEffect, Host.htry_catch, Host.hbind, Host.setItem. rewrite Hr.
  simpl. repeat split.
Qed.

Lemma refused_theme_save_skips_attribute_witness :
  (Host.saveThemeEffect dark (Host.mkHost ∅ false (fun _ _ => true) (Some (lit "light")) [])).2
    = Normal tt /\
  Host.data_theme
    (Host.saveThemeEffect dark (Host.mkHost ∅ false (fun _ _ => true) (Some (lit "light")) [])).1
    = Host.data_theme (Host.mkHost ∅ false (fun _ _ => true) (Some (lit "light")) []) /\
  Host.items
    (Host.saveThemeEffect dark (Host.mkHost ∅ false (fun _ _ => true) (Some (lit "light")) [])).1
    = Host.items (Host.mkHost ∅ false (fun _ _ => true) (Some (lit "light")) []) /\
  Host.console
    (Host.saveThemeEffect dark (Host.mkHost ∅ false (fun _ _ => true) (Some (lit "light")) [])).1
    = Host.console (Host.mkHost ∅ false (fun _ _ => true) (Some (lit "light")) [])
      ++ [lit "Failed to save theme to localStorage:"].
Proof.
  apply (refused_theme_save_skips_attribute dark
           (Host.mkHost ∅ false (fun _ _ => true) (Some (lit "light")) [])).
  reflexivity.
Defined.

(** ** The components *)

Import TodoInput TodoItem View.

(** X17. Submitting the input adds one item with the trimmed text and
    clears the input; submitting a blank input changes neither the
    collection nor the input. *)
Theorem handleSubmit_adds_or_keeps (now : Z) (todos : list Todo) (inputValue : jsstring) :
  (trim inputValue = [] -> handleSubmit now todos inputValue = (todos, inputValue)) /\
  (trim inputValue <> [] ->
     handleSubmit now todos inputValue
     = (todos ++ [mkTodo (toString now) (trim inputValue) false], [])).
Proof.
  unfold handleSubmit, addTodo, dispatch. split; intros Hs.
  - apply truthy_false in Hs. by rewrite Hs.
  - apply truthy_true in Hs. by rewrite Hs.
Qed.

Lemma handleSubmit_adds_or_keeps_witness :
  handleSubmit 5 [] (lit "  ") = ([], lit "  ") /\
  handleSubmit 5 [] (lit " a ") = ([] ++ [mkTodo (toString 5) (trim (lit " a ")) false], []).
Proof.
  split.
  - apply (proj1 (handleSubmit_adds_or_keeps 5 [] (lit "  "))). reflexivity.
  - apply (proj2 (handleSubmit_adds_or_keeps 5 [] (lit " a "))). vm_compute. discriminate.
Defined.

(** X18. In the edit input, Enter on a blank text does what Escape does:
    the collection stays as it is, the text is reset to the text of the
    item and editing ends. *)
Theorem blank_Enter_is_Escape (now : Z) (todos : list Todo) (todo : Todo) (st : state) :
  trim (editText st) = [] ->
  handleEditKeyDown (lit "Enter") now todos todo st
    = handleEditKeyDown (lit "Escape") now todos todo st /\
  handleEditKeyDown (lit "Enter") now todos todo st = (todos, mkState false (text todo)).
Proof.
  intros Hs. apply truthy_false in Hs.
  unfold handleEditKeyDown, handleEditSave, handleEditCancel.
  change (str_eq (lit "Enter") (lit "Enter")) with true.
  change (str_eq (lit "Escape") (lit "Enter")) with false.
  change (str_eq (lit "Escape") (lit "Escape")) with true.
  by rewrite Hs.
Qed.

Lemma blank_Enter_is_Escape_witness :
  handleEditKeyDown (lit "Enter") 0 [mkTodo (lit "1") (lit "a") true]
      (mkTodo (lit "1") (lit "a") true) (mkState true (lit "  "))
    = handleEditKeyDown (lit "Escape") 0 [mkTodo (lit "1") (lit "a") true]
        (mkTodo (lit "1") (lit "a") true) (mkState true (lit "  ")) /\
  handleEditKeyDown (lit "Enter") 0 [mkTodo (lit "1") (lit "a") true]
      (mkTodo (lit "1") (lit "a") true) (mkState true (lit "  "))
    = ([mkTodo (lit "1") (lit "a") true], mkState false (text (mkTodo (lit "1") (lit "a") true))).
Proof.
  apply (blank_Enter_is_Escape 0 [mkTodo (lit "1") (lit "a") true]
           (mkTodo (lit "1") (lit "a") true) (mkState true (lit "  "))).
  reflexivity.
Defined.



(** X20. Double click, typing a text that is not blank and saving: in a
    collection with distinct ids the item's position gets the trimmed
    text, nothing else changes, and editing ends. *)
Theorem edit_flow_updates_item
  (now : Z) (todos : list Todo) (k : nat) (todo : Todo) (st : state) (typed : jsstring) :
  NoDup (id <$> todos) -> todos !! k = Some todo -> trim typed <> [] ->
  handleEditSave now todos todo (setEditText typed (handleEditStart todo st))
  = (<[k := mkTodo (id todo) (trim typed) (completed todo)]> todos, mkState false typed).
Proof.
  intros Hnd Hk Hs. unfold handleEditSave, setEditText, handleEditStart. simpl.
  apply truthy_true in Hs. rewrite Hs. f_equal.
  unfold editTodo, dispatch. rewrite Hs. simpl.
  apply (map_one_id_insert
           (fun t => mkTodo (id t) (trim typed) (completed t)) _ _ _ Hnd Hk).
Qed.

Lemma edit_flow_updates_item_witness :
  handleEditSave 0 [mkTodo (lit "1") (lit "a") true; mkTodo (lit "2") (lit "b") false]
    (mkTodo (lit "2") (lit "b") false)
    (setEditText (lit " c ") (handleEditStart (mkTodo (lit "2") (lit "b") false)
                                (mkState false (lit "b"))))
  = (<[1 := mkTodo (id (mkTodo (lit "2") (lit "b") false)) (trim (lit " c "))
             (completed (mkTodo (lit "2") (lit "b") false))]>
       [mkTodo (lit "1") (lit "a") true; mkTodo (lit "2") (lit "b") false],
     mkState false (lit " c ")).
Proof.
  apply (edit_flow_updates_item 0
           [mkTodo (lit "1") (lit "a") true; mkTodo (lit "2") (lit "b") false] 1
           (mkTodo (lit "2") (lit "b") false) (mkState false (lit "b")) (lit " c ")).
  - by_decide.
  - reflexivity.
  - vm_compute. discriminate.
Defined.

(** X21. Double click and saving without typing leaves the collection as
    it is, in a collection with distinct ids whose item has a trimmed,
    non-empty text (as every item of a session has). *)
Theorem edit_flow_without_typing
  (now : Z) (todos : list Todo) (k : nat) (todo : Todo) (st : state) :
  NoDup (id <$> todos) -> todos !! k = Some todo ->
  text todo <> [] -> trim (text todo) = text todo ->
  handleEditSave now todos todo (handleEditStart todo st) = (todos, mkState false (text todo)).
Proof.
  intros Hnd Hk Hne Htrim. unfold handleEditSave, handleEditStart. simpl.
  rewrite Htrim. rewrite (proj2 (truthy_true _) Hne). f_equal.
  unfold editTodo, dispatch. rewrite Htrim, (proj2 (truthy_true _) Hne). simpl.
  rewrite (map_one_id_insert
             (fun t => mkTodo (id t) (text todo) (completed t)) _ _ _ Hnd Hk).
  apply list_insert_id. rewrite Hk. by destruct todo.
Qed.

Lemma edit_flow_without_typing_witness :
  handleEditSave 0 [mkTodo (lit "1") (lit "a") true; mkTodo (lit "2") (lit "b") false]
    (mkTodo (lit "2") (lit "b") false)
    (handleEditStart (mkTodo (lit "2") (lit "b") false) (mkState false (lit "x")))
  = ([mkTodo (lit "1") (lit "a") true; mkTodo (lit "2") (lit "b") false],
     mkState false (text (mkTodo (lit "2") (lit "b") false))).
Proof.
  apply (edit_flow_without_typing 0
           [mkTodo (lit "1") (lit "a") true; mkTodo (lit "2") (lit "b") false] 1
           (mkTodo (lit "2") (lit "b") false) (mkState false (lit "x"))).
  - by_decide.
  - reflexivity.
  - vm_compute. discriminate.
  - reflexivity.
Defined.

Lemma filter_length_eq {A} (f : A -> bool) (l : list A) :
  length (List.filter f l) = length l -> List.filter f l = l.
Proof.
  induction l as [|x l IH]; simpl; [done|].
  destruct (f x); simpl.
  - intros [= H]. f_equal. by apply IH.
  - intros H. pose proof (sublist_length _ _ (filter_sublist f l)). lia.
Qed.

Lemma counts_add_up (todos : list Todo) :
  activeCount todos + completedCount todos = length todos.
Proof.
  unfold activeCount, completedCount. rewrite <- length_app.
  by rewrite (filter_complement_perm completed todos).
Qed.

(** X22. The footer shows the clear button exactly when [clearCompleted]
    would change the collection, and the number on the button is the
    number of items it would remove. *)
Theorem clear_button_iff_effective (now : Z) (todos : list Todo) :
  ((exists f n, TodoList_footer todos = Some f /\ clear_button f = Some n)
   <-> clearCompleted now todos <> todos) /\
  (forall f n, TodoList_footer todos = Some f -> clear_button f = Some n ->
               length (clearCompleted now todos) + n = length todos).
Proof.
  pose proof (counts_add_up todos) as Hsum.
  assert (Hlen : length (clearCompleted now todos) = activeCount todos) by done.
  assert (Hiff : clearCompleted now todos = todos <-> completedCount todos = 0).
  { split.
    - intros Heq. rewrite Heq in Hlen. lia.
    - intros H0. apply filter_length_eq. fold (activeCount todos). lia. }
  unfold TodoList_footer. split.
  - split.
    + intros (f & n & Hf & Hn). intros Heq. apply Hiff in Heq.
      destruct (0 <? length todos); [|done]. injection Hf as <-. simpl in Hn.
      by rewrite Heq in Hn.
    + intros Hne. assert (Hc : completedCount todos <> 0) by (intros H0; by apply Hne, Hiff).
      assert (Hl : (0 <? length todos) = true) by (apply Nat.ltb_lt; lia).
      rewrite Hl. eexists _, (completedCount todos). split; [reflexivity|]. simpl.
      by rewrite (proj2 (Nat.ltb_lt 0 _)) by lia.
  - intros f n Hf Hn. destruct (0 <? length todos); [|done]. injection Hf as <-.
    simpl in Hn. destruct (0 <? completedCount todos); [|done]. injection Hn as <-. lia.
Qed.

(** X23. What the list shows: the hint to add a first todo exactly when
    the collection is empty, the hint that the filter matches nothing
    exactly when the collection is not empty but its projection is, and
    otherwise the projection, which then is not empty. *)
Theorem TodoList_body_cases (todos : list Todo) (filter : FilterContext.FilterType) :
  (TodoList_body todos filter = NoTodosYet <-> todos = []) /\
  (TodoList_body todos filter = NoFilterTodos filter
   <-> todos <> [] /\ filteredTodos todos filter = []) /\
  (forall shown, TodoList_body todos filter = TodoItems shown ->
                 shown = filteredTodos todos filter /\ shown <> []) /\
  TodoList_body todos FilterContext.all <> NoFilterTodos FilterContext.all.
Proof.
  assert (Hempty : todos = [] -> filteredTodos todos filter = []).
  { intros ->. by destruct filter. }
  unfold TodoList_body. repeat split.
  - destruct (filteredTodos todos filter) eqn:Hf; simpl; [|done].
    destruct todos; simpl; done.
  - intros ->. by rewrite Hempty.
  - destruct (filteredTodos todos filter) eqn:Hf; simpl in *; [|done].
    destruct todos; simpl in *; done.
  - destruct (filteredTodos todos filter) eqn:Hf; simpl in *; [done|].
    destruct todos; simpl in *; done.
  - intros [Hne Hf]. rewrite Hf. simpl. by destruct todos.
  - destruct (filteredTodos todos filter) eqn:Hf; simpl in *; [|congruence].
    destruct todos; simpl in *; done.
  - destruct (filteredTodos todos filter) eqn:Hf; simpl in *; [|congruence].
    destruct todos; simpl in *; done.
  - simpl. destruct todos; simpl; done.
Qed.

(** X24. Of the three filter buttons exactly one is marked active, the
    one whose click sets the current filter; the clicks set ['all'],
    ['active'] and ['completed'], in this order. *)
Theorem FilterButtons_one_active (filter : FilterContext.FilterType) :
  length (List.filter is_active (FilterButtons filter)) = 1 /\
  (forall b, b ∈ FilterButtons filter -> (is_active b = true <-> on_click b = filter)) /\
  on_click <$> FilterButtons filter
    = [FilterContext.all; FilterContext.active; FilterContext.completed].
Proof.
  split; [by destruct filter|]. split; [|by destruct filter].
  intros b Hb. unfold FilterButtons, filters in Hb. simpl in Hb.
  repeat (apply elem_of_cons in Hb as [->|Hb]; [by destruct filter|]).
  by apply elem_of_nil in Hb.
Qed.

(** X25. With distinct ids, completing an active item takes it out of the
    active view exactly as deleting it would. *)
Theorem completing_hides_like_deleting (now now' : Z) (todos : list Todo) (k : nat) (t : Todo) :
  NoDup (id <$> todos) -> todos !! k = Some t -> completed t = false ->
  filteredTodos (toggleTodo now todos (id t)) FilterContext.active
  = filteredTodos (deleteTodo now' todos (id t)) FilterContext.active.
Proof.
  intros Hnd Hk Hc.
  assert (Hdel : deleteTodo now' todos (id t) = delete k todos)
    by (by apply filter_one_id_delete).
  rewrite Hdel. unfold toggleTodo, dispatch. simpl.
  rewrite (map_one_id_insert
             (fun todo => mkTodo (id todo) (text todo) (negb (completed todo))) _ _ _ Hnd Hk).
  rewrite insert_take_drop by by eapply lookup_lt_Some. rewrite delete_take_drop.
  rewrite !List.filter_app. simpl. by rewrite Hc.
Qed.

Lemma completing_hides_like_deleting_witness :
  filteredTodos (toggleTodo 0 [mkTodo (lit "1") (lit "a") false; mkTodo (lit "2") (lit "b") false]
                   (id (mkTodo (lit "1") (lit "a") false))) FilterContext.active
  = filteredTodos (deleteTodo 1 [mkTodo (lit "1") (lit "a") false; mkTodo (lit "2") (lit "b") false]
                     (id (mkTodo (lit "1") (lit "a") false))) FilterContext.active.
Proof.
  apply (completing_hides_like_deleting 0 1
           [mkTodo (lit "1") (lit "a") false; mkTodo (lit "2") (lit "b") false] 0
           (mkTodo (lit "1") (lit "a") false)).
  - by_decide.
  - reflexivity.
  - reflexivity.
Defined.
